(** * Forge data plane: a shallow embedding of the task graph store

    The embedding follows [docs/data-plane-design.md]: the TypeScript types
    of the task schema, the SQLite schema with its constraints, the
    TypeScript functions [generateTaskId] and [claimTask], and the SQL
    queries behind [forge ready] and [forge dep tree].  The Sync Engine
    ([forge export] / [forge import]) has no code in the repository; it is
    modelled from the specification and marked as such. *)

From Stdlib Require Import ZArith NArith List Ascii String.
From stdpp Require Import gmap strings list fin_maps sorting relations.

Local Open Scope Z_scope.

(** ** Task schema (TypeScript types) *)

Inductive TaskStatus := open | in_progress | closed.
Inductive TaskType := task | bug | feature | epic | message.
Inductive DepType := blocks | related | discovered_from.

#[global] Instance TaskStatus_eq_dec : EqDecision TaskStatus.
Proof. solve_decision. Defined.
#[global] Instance TaskType_eq_dec : EqDecision TaskType.
Proof. solve_decision. Defined.
#[global] Instance DepType_eq_dec : EqDecision DepType.
Proof. solve_decision. Defined.

Definition DepType_to_nat (d : DepType) : nat :=
  match d with blocks => 0 | related => 1 | discovered_from => 2 end%nat.
Definition DepType_of_nat (n : nat) : option DepType :=
  match n with
  | 0 => Some blocks | 1 => Some related | 2 => Some discovered_from
  | _ => None
  end%nat.

#[global] Instance DepType_countable : Countable DepType.
Proof.
  apply (inj_countable DepType_to_nat DepType_of_nat).
  by intros [].
Defined.

(** [interface TaskDependency { id; type }]: the other task and the kind. *)
Record TaskDependency := { dep_id : string; dep_type : DepType }.

#[global] Instance TaskDependency_eq_dec : EqDecision TaskDependency.
Proof. solve_decision. Defined.

(** One row of the [tasks] table, without its primary key [id]: the table
    is a finite map from [id] to the remaining columns, which is what
    [id TEXT PRIMARY KEY NOT NULL] says.  [labels] and [metadata] are TEXT
    columns holding JSON. *)
Record TaskRow := {
  title : string;
  description : string;
  status : TaskStatus;
  close_reason : option string;
  priority : Z;
  type : TaskType;
  assignee : option string;
  parent_id : option string;
  labels : list string;
  github_issue : option Z;
  created_at : string;
  created_by : string;
  updated_at : string;
  closed_at : option string;
  metadata : string
}.

#[global] Instance TaskRow_eq_dec : EqDecision TaskRow.
Proof. solve_decision. Defined.

(** Timestamps are ISO 8601 strings ([toISOString]), compared as text;
    [later t2 t1] is [t2 > t1]. *)
Definition later (t2 t1 : string) : Prop := String.ltb t1 t2 = true.

#[global] Instance later_dec t2 t1 : Decision (later t2 t1).
Proof. unfold later. apply _. Defined.

(** [interface Task]: a row together with its id and its outbound
    dependencies; this is the shape of one JSONL snapshot. *)
Record Task := {
  id : string;
  row : TaskRow;
  task_dependencies : list TaskDependency
}.

#[global] Instance Task_eq_dec : EqDecision Task.
Proof. solve_decision. Defined.

(** One row of the [dependencies] table:
    [PRIMARY KEY (from_id, to_id, dep_type)]. *)
Definition Edge : Type := string * string * DepType.
Definition from_id (e : Edge) : string := e.1.1.
Definition to_id (e : Edge) : string := e.1.2.
Definition edge_type (e : Edge) : DepType := e.2.

(** The Query Index ([forge.db]): the two relations of the SQLite schema. *)
Record Database := {
  tasks : gmap string TaskRow;
  dependencies : gset Edge
}.

Definition empty_db : Database := {| tasks := ∅; dependencies := ∅ |}.

(** ** SQL building blocks *)

(** [UPDATE tasks SET ... WHERE ...]: every row that satisfies the WHERE
    clause is rewritten by the SET clause; the second component is the
    number of rows changed ([result.changes]). *)
Definition sql_update (where_ : string → TaskRow → bool) (set_ : TaskRow → TaskRow)
    (m : gmap string TaskRow) : gmap string TaskRow * nat :=
  (map_imap (λ k r, Some (if where_ k r then set_ r else r)) m,
   size (filter (λ kr, where_ kr.1 kr.2 = true) m)).

(** ** Claim Coordinator: [claimTask] *)

(** The WHERE clause [id = ? AND status = 'open' AND assignee IS NULL]. *)
Definition claim_where (taskId : string) (k : string) (r : TaskRow) : bool :=
  bool_decide (k = taskId) && bool_decide (status r = open)
  && bool_decide (assignee r = None).

(** The SET clause [status = 'in_progress', assignee = ?, updated_at = ?]. *)
Definition claim_set (agentId now : string) (r : TaskRow) : TaskRow :=
  {| title := title r; description := description r;
     status := in_progress; close_reason := close_reason r;
     priority := priority r; type := type r;
     assignee := Some agentId; parent_id := parent_id r;
     labels := labels r; github_issue := github_issue r;
     created_at := created_at r; created_by := created_by r;
     updated_at := now; closed_at := closed_at r;
     metadata := metadata r |}.

(** The prepared statement of [claimTask], run with [(agentId, now, taskId)]. *)
Definition claim_statement (db : Database) (taskId agentId now : string)
    : Database * nat :=
  let '(tasks', changes) :=
    sql_update (claim_where taskId) (claim_set agentId now) (tasks db) in
  ({| tasks := tasks'; dependencies := dependencies db |}, changes).

(** [claimTask(db, taskId, agentId)]; [now] is the reading of the clock
    ([new Date().toISOString()]).  The result is the boolean returned and
    the database after the call. *)
Definition claimTask (db : Database) (taskId agentId now : string)
    : bool * Database :=
  let '(db', changes) := claim_statement db taskId agentId now in
  (Nat.eqb changes 1, db').

(** The task exists, is open and has no assignee. *)
Definition claimable (db : Database) (taskId : string) : Prop :=
  ∃ r, tasks db !! taskId = Some r ∧ status r = open ∧ assignee r = None.

(** A successful call has moved [updated_at] of the task forward: the
    value after the call is later than the one before it. *)
Definition claim_advances (db : Database) (taskId agentId now : string) : Prop :=
  (claimTask db taskId agentId now).1 = true →
  ∃ r r', tasks db !! taskId = Some r
    ∧ tasks (claimTask db taskId agentId now).2 !! taskId = Some r'
    ∧ later (updated_at r') (updated_at r).

(** ** Identity Generator: [generateTaskId] *)

(** [randomBytes(4)]: the four random bytes drawn by one call. *)
Record Bytes4 := { byte0 : Byte.byte; byte1 : Byte.byte;
                   byte2 : Byte.byte; byte3 : Byte.byte }.

(** [bytes.readUInt32BE(0)]: big-endian unsigned 32-bit integer. *)
Definition readUInt32BE (bytes : Bytes4) : N :=
  (Byte.to_N (byte0 bytes) * 16777216 + Byte.to_N (byte1 bytes) * 65536
   + Byte.to_N (byte2 bytes) * 256 + Byte.to_N (byte3 bytes))%N.

Definition alphabet36 : list ascii :=
  list_ascii_of_string "0123456789abcdefghijklmnopqrstuvwxyz".

Definition digit36 (d : N) : ascii := nth (N.to_nat d) alphabet36 "0"%char.

(** [num.toString(36)] on a non-negative integer: most significant digit
    first, no leading zero, ["0"] for zero.  The digits are produced from
    the least significant one; the fuel is the number of bits of [n].
    The code applies it to the result of [readUInt32BE], a number below
    2^32, which a JavaScript number holds exactly: on that range the
    numeral is the one written here.  (From 2^53 on a JavaScript number
    is no longer every integer, and this definition says nothing about
    the numerals there.) *)
Fixpoint toString36_go (fuel : nat) (n : N) (acc : list ascii) : list ascii :=
  match fuel with
  | O => acc
  | S fuel' =>
      let acc' := digit36 (n mod 36) :: acc in
      if (n / 36 =? 0)%N then acc' else toString36_go fuel' (n / 36) acc'
  end.

Definition toString36 (n : N) : list ascii :=
  toString36_go (S (N.to_nat (N.log2 n))) n [].

(** [s.padStart(targetLength, c)] and [s.slice(-k)]. *)
Definition padStart (targetLength : nat) (c : ascii) (s : list ascii) : list ascii :=
  replicate (targetLength - length s) c ++ s.

Definition slice_last (k : nat) (s : list ascii) : list ascii :=
  drop (length s - k) s.

(** [generateTaskId(prefix)], with the random draw made explicit. *)
Definition generateTaskId (prefix : string) (bytes : Bytes4) : string :=
  let num := readUInt32BE bytes in
  let encoded := slice_last 4 (padStart 4 "0"%char (toString36 num)) in
  prefix +:+ "-" +:+ string_of_list_ascii encoded.

(** The [k] least significant base-36 digits of [n], most significant
    first. *)
Fixpoint low_digits (k : nat) (n : N) : list ascii :=
  match k with
  | O => []
  | S k' => low_digits k' (n / 36) ++ [digit36 (n mod 36)]
  end.

(** The id handed out is not one the Index already holds. *)
Definition returns_fresh_id (db : Database) (prefix : string) (bytes : Bytes4) : Prop :=
  generateTaskId prefix bytes ∉ dom (tasks db).

(** ** The [dependencies] table: insertion of a row *)




(** ** Dependency Engine: [forge ready] *)

(** The join condition and filter of the sub-select: the edge is of type
    [blocks] and joins a [blocker] row whose status is not [closed]. *)
Definition unresolved_blocker (db : Database) (d : Edge) : bool :=
  bool_decide (edge_type d = blocks) &&
  match tasks db !! to_id d with
  | Some blocker => bool_decide (status blocker ≠ closed)
  | None => false
  end.

(** [SELECT d.from_id FROM dependencies d JOIN tasks blocker ...]. *)
Definition blocked_ids (db : Database) : list string :=
  from_id <$> filter (λ d, unresolved_blocker db d = true)
                     (elements (dependencies db)).

Definition ready_where (db : Database) (t : string * TaskRow) : bool :=
  bool_decide (status t.2 = open) && bool_decide (assignee t.2 = None)
  && bool_decide (t.1 ∉ blocked_ids db).

(** [ORDER BY t.priority ASC, t.created_at ASC]; TEXT columns compare
    bytewise. *)
Definition ready_order (x y : string * TaskRow) : Prop :=
  priority x.2 < priority y.2 ∨
  (priority x.2 = priority y.2 ∧ String.le (created_at x.2) (created_at y.2)).

#[global] Instance ready_order_dec x y : Decision (ready_order x y).
Proof. unfold ready_order, String.le. apply _. Defined.

(** The query: a function of the database alone, with rows as its only
    result. *)
Definition ready (db : Database) : list (string * TaskRow) :=
  merge_sort ready_order
    (filter (λ t, ready_where db t = true) (map_to_list (tasks db))).


(** ** Dependency Engine: [forge dep tree] (recursive CTE) *)

Definition max_depth : Z := 10.
Definition path_separator : string := " → ".

(** A row of the recursive table [dep_tree(task_id, depth, path)]. *)
Record TreeRow := { task_id : string; depth : Z; path : string }.

(** The anchor [SELECT ?, 0, ?]. *)
Definition dep_tree_anchor (root rootPath : string) : TreeRow :=
  {| task_id := root; depth := 0; path := rootPath |}.

(** The recursive select, run on one row [dt] of the recursive table. *)
Definition dep_tree_step (db : Database) (dt : TreeRow) : list TreeRow :=
  (λ d, {| task_id := to_id d; depth := depth dt + 1;
           path := path dt +:+ path_separator +:+ to_id d |}) <$>
  filter (λ d, from_id d = task_id dt ∧ edge_type d = blocks
               ∧ depth dt < max_depth)
         (elements (dependencies db)).

(** Evaluation of [WITH RECURSIVE] as SQLite does it: rows wait in a queue;
    one row at a time is taken out, added to the recursive table, and the
    recursive select is run on that single row, its results joining the
    queue.  Evaluation ends when the queue is empty; [None] means the fuel
    ran out first. *)
Fixpoint cte_run (fuel : nat) (step : TreeRow → list TreeRow)
    (queue : list TreeRow) : option (list TreeRow) :=
  match queue with
  | [] => Some []
  | dt :: rest =>
      match fuel with
      | O => None
      | S fuel' => (dt ::.) <$> cte_run fuel' step (rest ++ step dt)
      end
  end.

(** A row of the final select. *)
Record TreeResult := {
  r_depth : Z; r_path : string; r_id : string;
  r_title : string; r_status : TaskStatus; r_priority : Z
}.

(** [FROM dep_tree dt JOIN tasks t ON t.id = dt.task_id]. *)
Definition dep_tree_join (db : Database) (dt : TreeRow) : option TreeResult :=
  (λ t, {| r_depth := depth dt; r_path := path dt; r_id := task_id dt;
           r_title := title t; r_status := status t;
           r_priority := priority t |}) <$> tasks db !! task_id dt.

(** [ORDER BY dt.depth ASC, t.priority ASC]. *)
Definition tree_order (x y : TreeResult) : Prop :=
  r_depth x < r_depth y ∨ (r_depth x = r_depth y ∧ r_priority x ≤ r_priority y).

#[global] Instance tree_order_dec x y : Decision (tree_order x y).
Proof. unfold tree_order. apply _. Defined.

Definition dep_tree_select (db : Database) (rows : list TreeRow) : list TreeResult :=
  merge_sort tree_order (omap (dep_tree_join db) rows).

Definition depth_in_bound (dt : TreeRow) : Prop := 0 ≤ depth dt ≤ max_depth.

(** The whole query with a given amount of fuel. *)
Definition dep_tree_query (fuel : nat) (db : Database) (root rootPath : string)
    : option (list TreeResult) :=
  dep_tree_select db <$>
    cte_run fuel (dep_tree_step db) [dep_tree_anchor root rootPath].

(** The number of rows the recursive table gets below and including a row
    for [node] that has [budget] levels left before the depth guard. *)
Fixpoint subtree_rows (db : Database) (budget : nat) (node : string) : nat :=
  match budget with
  | O => 1
  | S budget' =>
      S (sum_list (subtree_rows db budget' <$>
           (to_id <$> filter (λ d, from_id d = node ∧ edge_type d = blocks)
                             (elements (dependencies db)))))
  end.

Definition row_cost (db : Database) (dt : TreeRow) : nat :=
  subtree_rows db (Z.to_nat (max_depth - depth dt)) (task_id dt).

(** [forge dep tree <id>]: the query run with fuel for every row. *)
Definition dep_tree (db : Database) (root rootPath : string)
    : option (list TreeResult) :=
  dep_tree_query (row_cost db (dep_tree_anchor root rootPath)) db root rootPath.

(** ** Sync Engine: [forge export] and [forge import] *)

(** A line of the Record Store ([tasks.jsonl]) as the import sees it after
    decoding: "one self-contained JSON object" that is a task snapshot, or
    a line that does not parse. *)
Inductive Line :=
  | Snapshot (t : Task)
  | Malformed (raw : string).

(** The dependency list of a task in the Index, read off the
    [dependencies] relation (the normalized form of [Task.dependencies]). *)
Definition outbound (db : Database) (k : string) : list TaskDependency :=
  (λ d, {| dep_id := to_id d; dep_type := edge_type d |}) <$>
  filter (λ d, from_id d = k) (elements (dependencies db)).

Definition edges_of (t : Task) : gset Edge :=
  list_to_set ((λ d, (id t, dep_id d, dep_type d)) <$> task_dependencies t).

(** Modelled from the spec: the line the export writes for one row of
    [tasks], the snapshot of the task with every field of the Task schema,
    its dependency list read off the [dependencies] relation. *)
Definition export_line (db : Database) (kr : string * TaskRow) : Line :=
  Snapshot {| id := kr.1; row := kr.2; task_dependencies := outbound db kr.1 |}.

(** Modelled from the spec: the export of the Sync Engine, which has no
    code in the repository.  It "writes the Index's current task set as one
    deduplicated snapshot line per task". *)
Definition export (db : Database) : list Line :=
  export_line db <$> map_to_list (tasks db).

(** Modelled from the spec: the upsert of one snapshot, "last writer wins at
    the whole-record granularity, keyed by [updated_at]": the snapshot
    replaces the row held for its id when there is none or when its
    [updated_at] is later, and is dropped otherwise. *)
Definition upsert (t : Task) (m : gmap string TaskRow) : gmap string TaskRow :=
  match m !! id t with
  | Some held =>
      if decide (later (updated_at (row t)) (updated_at held))
      then <[id t := row t]> m else m
  | None => <[id t := row t]> m
  end.

(** Modelled from the spec: what the upsert does to the row held for the
    id of the snapshot ([upsert] seen at one key). *)
Definition upsert_held (t : Task) (held : option TaskRow) : option TaskRow :=
  match held with
  | Some r => if decide (later (updated_at (row t)) (updated_at r))
              then Some (row t) else Some r
  | None => Some (row t)
  end.

(** Modelled from the spec: one line of the first pass.  "Malformed lines
    are skipped with a warning, never fatal to the import as a whole." *)
Definition import_line (m : gmap string TaskRow) (l : Line) : gmap string TaskRow :=
  match l with
  | Snapshot t => upsert t m
  | Malformed _ => m
  end.

(** Modelled from the spec: the first pass of the import, which "reads the
    Record Store sequentially" and upserts every line that parses. *)
Definition import_tasks (lines : list Line) (m : gmap string TaskRow)
    : gmap string TaskRow :=
  foldl import_line m lines.

(** Modelled from the spec: the snapshot is the record the Index holds for
    its id after the first pass ("the import step keeps the entire later
    record and discards the earlier one completely"). *)
Definition retained (m : gmap string TaskRow) (t : Task) : bool :=
  bool_decide (m !! id t = Some (row t)).

(** Modelled from the spec: one line of the second pass.  "After upserting
    tasks, dependency edges implied by each task's dependency list are
    inserted into the [dependencies] relation idempotently"; the
    dependency list of a task is that of the snapshot retained for it. *)
Definition import_edges (m : gmap string TaskRow) (ds : gset Edge) (l : Line)
    : gset Edge :=
  match l with
  | Snapshot t => if retained m t then edges_of t ∪ ds else ds
  | Malformed _ => ds
  end.

(** Modelled from the spec: the import of the Sync Engine, which has no
    code in the repository: the two passes over the lines of the Record
    Store.  The spec gives the import no constraint check of its own, and
    none is modelled here. *)
Definition import (lines : list Line) (db : Database) : Database :=
  let m := import_tasks lines (tasks db) in
  {| tasks := m; dependencies := foldl (import_edges m) (dependencies db) lines |}.

(** The parsed snapshots of a Record Store for one id, in file order. *)
Definition snapshots_of (k : string) (lines : list Line) : list Task :=
  omap (λ l, match l with
             | Snapshot t => if decide (id t = k) then Some t else None
             | Malformed _ => None
             end) lines.

(** The import rule the design document gives next to the file format,
    "Forge processes lines in order and the last occurrence of a given id
    wins", kept for comparison with [import_tasks]. *)
Definition import_scan_order (lines : list Line) (m : gmap string TaskRow)
    : gmap string TaskRow :=
  foldl (λ m l, match l with
                | Snapshot t => <[id t := row t]> m
                | Malformed _ => m
                end) m lines.

(** ** Concurrent callers of [claimTask] *)

(** A call of [claimTask] in progress: it reads the clock, then runs its
    single UPDATE statement, then returns.  SQLite runs a statement under
    the write lock, so the statement is one step; steps of different
    callers interleave freely. *)
Inductive ClaimPc :=
  | AtStart
  | ClockRead (now : string)
  | Returned (result : bool).

Record ClaimCall := {
  call_task : string;
  call_agent : string;
  call_pc : ClaimPc
}.

Definition start_call (taskId agentId : string) : ClaimCall :=
  {| call_task := taskId; call_agent := agentId; call_pc := AtStart |}.

Definition at_pc (c : ClaimCall) (pc : ClaimPc) : ClaimCall :=
  {| call_task := call_task c; call_agent := call_agent c; call_pc := pc |}.

Inductive call_step : Database * ClaimCall → Database * ClaimCall → Prop :=
  | step_clock db c now :
      call_pc c = AtStart →
      call_step (db, c) (db, at_pc c (ClockRead now))
  | step_update db c now db' changes :
      call_pc c = ClockRead now →
      claim_statement db (call_task c) (call_agent c) now = (db', changes) →
      call_step (db, c) (db', at_pc c (Returned (Nat.eqb changes 1))).

(** Two callers on one database. *)
Definition Race : Type := Database * ClaimCall * ClaimCall.

Inductive race_step : Race → Race → Prop :=
  | race_first db c1 c2 db' c1' :
      call_step (db, c1) (db', c1') → race_step (db, c1, c2) (db', c1', c2)
  | race_second db c1 c2 db' c2' :
      call_step (db, c2) (db', c2') → race_step (db, c1, c2) (db', c1, c2').

Definition returned (c : ClaimCall) : Prop := ∃ b, call_pc c = Returned b.
Definition won (c : ClaimCall) : Prop := call_pc c = Returned true.

(** The invariant of a race for [taskId]: either the task is still
    claimable and nobody has returned, or it is not and exactly one caller
    has returned true. *)
Definition race_inv (taskId : string) (w : Race) : Prop :=
  call_task w.1.2 = taskId ∧ call_task w.2 = taskId ∧
  ((claimable w.1.1 taskId ∧ ¬ returned w.1.2 ∧ ¬ returned w.2)
   ∨ (¬ claimable w.1.1 taskId ∧
      ((won w.1.2 ∧ ¬ won w.2) ∨ (won w.2 ∧ ¬ won w.1.2)))).

(** ** Sample data *)

Definition sample_row (st : TaskStatus) (who : option string) (prio : Z)
    (created updated : string) : TaskRow :=
  {| title := "Scaffold .forge/ directory on init"; description := "";
     status := st; close_reason := None; priority := prio; type := task;
     assignee := who; parent_id := None; labels := []; github_issue := None;
     created_at := created; created_by := "orchestrator";
     updated_at := updated; closed_at := None; metadata := "{}" |}.

Definition T1 : string := "2026-02-10T09:00:00.000Z".
Definition T2 : string := "2026-02-11T08:15:00.000Z".

(** One open, unassigned task [fg-a3f8]. *)
Definition db_one_open : Database :=
  {| tasks := {[ "fg-a3f8" := sample_row open None 1 T1 T1 ]};
     dependencies := ∅ |}.

Definition race_start : Race :=
  (db_one_open, start_call "fg-a3f8" "worker-1", start_call "fg-a3f8" "worker-2").

(** The second caller's statement runs first: it wins, the first loses. *)
Definition race_end : Race :=
  ({| tasks := {[ "fg-a3f8" := sample_row in_progress (Some "worker-2") 1 T1 T2 ]};
      dependencies := ∅ |},
   {| call_task := "fg-a3f8"; call_agent := "worker-1"; call_pc := Returned false |},
   {| call_task := "fg-a3f8"; call_agent := "worker-2"; call_pc := Returned true |}).

(** The same task with a [blocks] edge to [fg-zzzz], which is not in
    [tasks]: a state the foreign key of the schema rules out, kept to
    show what the query alone does with such an edge. *)
Definition db_dangling : Database :=
  {| tasks := tasks db_one_open;
     dependencies := {[ ("fg-a3f8", "fg-zzzz", blocks) ]} ∪ dependencies db_one_open |}.

(** The draw [00 07 2f d4], which encodes to [a3f8]. *)
Definition bytes_a3f8 : Bytes4 :=
  {| byte0 := Byte.x00; byte1 := Byte.x07; byte2 := Byte.x2f; byte3 := Byte.xd4 |}.

(** [fg-a3f8] depends on [fg-b2c1], which is closed. *)
Definition db_blocker_closed : Database :=
  {| tasks := {[ "fg-a3f8" := sample_row open None 1 T1 T1;
                 "fg-b2c1" := sample_row closed None 0 T1 T2 ]};
     dependencies := {[ ("fg-a3f8", "fg-b2c1", blocks) ]} |}.

(** Two tasks that block each other. *)
Definition db_cycle : Database :=
  {| tasks := {[ "fg-a3f8" := sample_row open None 1 T1 T1;
                 "fg-b2c1" := sample_row open None 0 T2 T2 ]};
     dependencies := {[ ("fg-a3f8", "fg-b2c1", blocks);
                        ("fg-b2c1", "fg-a3f8", blocks) ]} |}.

(** Two snapshots of [fg-a3f8], the later one claimed by [worker-1] and
    depending on [fg-b2c1], and a store that lists the later one first. *)
Definition snap_T1 : Task :=
  {| id := "fg-a3f8"; row := sample_row open None 1 T1 T1;
     task_dependencies := [] |}.
Definition snap_T2 : Task :=
  {| id := "fg-a3f8"; row := sample_row in_progress (Some "worker-1") 1 T1 T2;
     task_dependencies := [ {| dep_id := "fg-b2c1"; dep_type := blocks |} ] |}.
Definition store_later_first : list Line :=
  [Snapshot snap_T2; Malformed "{"; Snapshot snap_T1].
Definition store_later_last : list Line :=
  [Snapshot snap_T1; Snapshot snap_T2].

(** ** Base-36 numerals *)

(** The value of a digit of [alphabet36], and the number a base-36 numeral
    denotes (most significant digit first). *)
Fixpoint index_of (c : ascii) (l : list ascii) : nat :=
  match l with
  | [] => 0
  | x :: l' => if Ascii.eqb c x then 0 else S (index_of c l')
  end.

Definition value36 (c : ascii) : N := N.of_nat (index_of c alphabet36).

Definition parse36 (s : list ascii) : N :=
  foldl (λ acc c, (acc * 36 + value36 c)%N) 0%N s.

(** ** Schema constraints *)

(** [CHECK(priority BETWEEN 0 AND 4)]; the CHECKs on [status] and [type]
    hold of every [TaskRow] by its type. *)
Definition priority_ok (r : TaskRow) : Prop := 0 ≤ priority r ≤ 4.

(** [parent_id TEXT REFERENCES tasks(id)]: a parent that is not NULL is a
    task. *)
Definition parent_ok (m : gmap string TaskRow) (r : TaskRow) : Prop :=
  ∀ p, parent_id r = Some p → is_Some (m !! p).

(** [from_id] and [to_id] of [dependencies] both [REFERENCES tasks(id)]. *)
Definition edge_ok (m : gmap string TaskRow) (e : Edge) : Prop :=
  is_Some (m !! from_id e) ∧ is_Some (m !! to_id e).

(** A database that satisfies the constraints the schema declares, as
    every database written through SQLite with [foreign_keys = ON] does. *)
Record schema_ok (db : Database) : Prop := {
  rows_priority : ∀ k r, tasks db !! k = Some r → priority_ok r;
  rows_parent : ∀ k r, tasks db !! k = Some r → parent_ok (tasks db) r;
  edges_fk : ∀ e, e ∈ dependencies db → edge_ok (tasks db) e
}.

(** Two open, unassigned tasks and no dependency. *)
Definition db_two_open : Database :=
  {| tasks := {[ "fg-a3f8" := sample_row open None 1 T1 T1;
                 "fg-b2c1" := sample_row open None 0 T2 T2 ]};
     dependencies := ∅ |}.

(** A database with one more row in [dependencies]. *)
Definition with_edge (db : Database) (e : Edge) : Database :=
  {| tasks := tasks db; dependencies := {[ e ]} ∪ dependencies db |}.

(** ** Walks along [blocks] edges *)

(** [ids] are the tasks met, in order, on a walk that starts at [from] and
    follows [blocks] edges from each task to the next. *)
Fixpoint is_walk (db : Database) (from : string) (ids : list string) : Prop :=
  match ids with
  | [] => True
  | k :: rest => (from, k, blocks) ∈ dependencies db ∧ is_walk db k rest
  end.

Definition walk_end (root : string) (ids : list string) : string :=
  default root (last ids).

(** The path column of a walk: the path of the root and, for each task
    met, the separator and its id. *)
Definition walk_path (rootPath : string) (ids : list string) : string :=
  foldl (λ p k, p +:+ path_separator +:+ k) rootPath ids.

Definition walk_row (root rootPath : string) (ids : list string) : TreeRow :=
  {| task_id := walk_end root ids; depth := Z.of_nat (length ids);
     path := walk_path rootPath ids |}.

(** One row of the recursive table yields another by the recursive
    select. *)
Definition yields (db : Database) (dt dt' : TreeRow) : Prop :=
  dt' ∈ dep_tree_step db dt.

(** ** [forge task show <id>] and the tasks of a GitHub issue *)

(** [SELECT ... FROM tasks WHERE ... ORDER BY priority ASC, created_at ASC]
    before the projection on the selected columns. *)
Definition select_ordered (P : string * TaskRow → Prop) `{∀ t, Decision (P t)}
    (m : gmap string TaskRow) : list (string * TaskRow) :=
  merge_sort ready_order (filter P (map_to_list m)).

(** Step 1: [SELECT * FROM tasks WHERE id = ?]. *)
Definition show_task (db : Database) (k : string) : option TaskRow :=
  tasks db !! k.

(** A row of steps 2 and 3: [d.dep_type], the id of the other task, and
    [t.title, t.status, t.priority, t.assignee] of that task. *)
Record DepInfo := {
  info_type : DepType; info_id : string; info_title : string;
  info_status : TaskStatus; info_priority : Z; info_assignee : option string
}.

Definition dep_info (ty : DepType) (k : string) (t : TaskRow) : DepInfo :=
  {| info_type := ty; info_id := k; info_title := title t;
     info_status := status t; info_priority := priority t;
     info_assignee := assignee t |}.

(** Step 2: [FROM dependencies d JOIN tasks t ON t.id = d.to_id
    WHERE d.from_id = ?]. *)
Definition show_outbound (db : Database) (k : string) : list DepInfo :=
  omap (λ d, dep_info (edge_type d) (to_id d) <$> tasks db !! to_id d)
       (filter (λ d, from_id d = k) (elements (dependencies db))).

(** Step 3: [FROM dependencies d JOIN tasks t ON t.id = d.from_id
    WHERE d.to_id = ?]. *)
Definition show_inbound (db : Database) (k : string) : list DepInfo :=
  omap (λ d, dep_info (edge_type d) (from_id d) <$> tasks db !! from_id d)
       (filter (λ d, to_id d = k) (elements (dependencies db))).

(** A row of step 4: [id, title, status, priority, assignee]. *)
Record SubtaskInfo := {
  sub_id : string; sub_title : string; sub_status : TaskStatus;
  sub_priority : Z; sub_assignee : option string
}.

Definition subtask_info (t : string * TaskRow) : SubtaskInfo :=
  {| sub_id := t.1; sub_title := title t.2; sub_status := status t.2;
     sub_priority := priority t.2; sub_assignee := assignee t.2 |}.

(** Step 4: [FROM tasks WHERE parent_id = ? ORDER BY priority ASC,
    created_at ASC]. *)
Definition show_subtasks (db : Database) (k : string) : list SubtaskInfo :=
  subtask_info <$> select_ordered (λ t, parent_id t.2 = Some k) (tasks db).

(** A row of the query for a GitHub issue: [id, title, status, priority,
    type, assignee, created_at, updated_at]. *)
Record IssueTask := {
  it_id : string; it_title : string; it_status : TaskStatus;
  it_priority : Z; it_type : TaskType; it_assignee : option string;
  it_created_at : string; it_updated_at : string
}.

Definition issue_task (t : string * TaskRow) : IssueTask :=
  {| it_id := t.1; it_title := title t.2; it_status := status t.2;
     it_priority := priority t.2; it_type := type t.2;
     it_assignee := assignee t.2; it_created_at := created_at t.2;
     it_updated_at := updated_at t.2 |}.

(** [FROM tasks WHERE github_issue = ? ORDER BY priority ASC,
    created_at ASC]. *)
Definition tasks_for_issue (db : Database) (issue : Z) : list IssueTask :=
  issue_task <$> select_ordered (λ t, github_issue t.2 = Some issue) (tasks db).

(** The order of the rows of [tasks_for_issue]. *)
Definition issue_order (x y : IssueTask) : Prop :=
  it_priority x < it_priority y ∨
  (it_priority x = it_priority y ∧ String.le (it_created_at x) (it_created_at y)).

(** ** Deleting a task under the schema *)

(** [parent_id ... REFERENCES tasks(id) ON DELETE SET NULL]: what the
    deletion of task [k] does to another row. *)
Definition orphan (k : string) (r : TaskRow) : TaskRow :=
  if decide (parent_id r = Some k) then
    {| title := title r; description := description r;
       status := status r; close_reason := close_reason r;
       priority := priority r; type := type r;
       assignee := assignee r; parent_id := None;
       labels := labels r; github_issue := github_issue r;
       created_at := created_at r; created_by := created_by r;
       updated_at := updated_at r; closed_at := closed_at r;
       metadata := metadata r |}
  else r.

(** [DELETE FROM tasks WHERE id = k] with the actions the schema attaches
    to it: the row goes, the rows of [dependencies] that reference it go
    with it ([ON DELETE CASCADE] on [from_id] and [to_id]), and its
    subtasks lose their parent.  Deleting an id that is no task deletes no
    row and fires no action. *)
Definition delete_task (db : Database) (k : string) : Database :=
  match tasks db !! k with
  | None => db
  | Some _ =>
      {| tasks := orphan k <$> delete k (tasks db);
         dependencies :=
           filter (λ e, from_id e ≠ k ∧ to_id e ≠ k) (dependencies db) |}
  end.

(** ** Record Stores after a merge *)

(** Two snapshots of one task that carry the same [updated_at] carry the
    same row: no two different versions of a task share a timestamp. *)
Definition ties_agree (lines : list Line) : Prop :=
  ∀ s s', Snapshot s ∈ lines → Snapshot s' ∈ lines →
    id s = id s' → updated_at (row s) = updated_at (row s') → row s = row s'.

(** * Properties *)

Section ClaimFacts.
Implicit Types (db : Database) (m : gmap string TaskRow) (r : TaskRow).

#[global] Instance claimable_dec db taskId : Decision (claimable db taskId).
Proof.
  unfold claimable. destruct (tasks db !! taskId) as [r|] eqn:E.
  - destruct (decide (status r = open)) as [Hs|Hs];
      [destruct (decide (assignee r = None)) as [Ha|Ha]|].
    + left. eauto.
    + right. intros (r' & [= <-] & _ & ?). done.
    + right. intros (r' & [= <-] & ? & _). done.
  - right. intros (r' & ? & _). done.
Defined.

Lemma claim_where_true taskId k r :
  claim_where taskId k r = true ↔ k = taskId ∧ status r = open ∧ assignee r = None.
Proof.
  unfold claim_where. rewrite !andb_true_iff, !bool_decide_eq_true. tauto.
Qed.

(** The rows matched by the WHERE clause: at most the one keyed [taskId]. *)
Lemma claim_matches m taskId :
  filter (λ kr, claim_where taskId kr.1 kr.2 = true) m =
  match m !! taskId with
  | Some r => if claim_where taskId taskId r then {[taskId := r]} else ∅
  | None => ∅
  end.
Proof.
  apply map_eq. intros k. rewrite map_lookup_filter.
  destruct (decide (k = taskId)) as [->|Hne].
  - destruct (m !! taskId) as [r|] eqn:E; simpl; [|done].
    destruct (claim_where taskId taskId r) eqn:W.
    + rewrite option_guard_True by done. simpl. by rewrite lookup_singleton_eq.
    + rewrite option_guard_False by (simpl; congruence). done.
  - assert (∀ r, claim_where taskId k r = false) as Hf.
    { intros r. destruct (claim_where taskId k r) eqn:W; [|done].
      apply claim_where_true in W. by destruct W as [? _]. }
    transitivity (@None TaskRow).
    + destruct (m !! k) as [r|]; simpl; [|done].
      rewrite option_guard_False; [done|]. simpl. rewrite Hf. done.
    + destruct (m !! taskId) as [r|]; [|done].
      destruct (claim_where taskId taskId r); [|done].
      by rewrite lookup_singleton_ne.
Qed.

Lemma sql_update_claim_hit m taskId agentId now r :
  m !! taskId = Some r → status r = open → assignee r = None →
  sql_update (claim_where taskId) (claim_set agentId now) m =
    (<[taskId := claim_set agentId now r]> m, 1%nat).
Proof.
  intros Hr Hs Ha. unfold sql_update. f_equal.
  - apply map_eq. intros k. rewrite map_lookup_imap.
    destruct (decide (k = taskId)) as [->|Hne].
    + rewrite Hr, lookup_insert_eq. simpl.
      by rewrite (proj2 (claim_where_true taskId taskId r)).
    + rewrite lookup_insert_ne by done.
      destruct (m !! k) as [r'|]; simpl; [|done].
      destruct (claim_where taskId k r') eqn:W; [|done].
      apply claim_where_true in W. by destruct W as [? _].
  - rewrite claim_matches, Hr.
    rewrite (proj2 (claim_where_true taskId taskId r)) by done.
    apply map_size_singleton.
Qed.

Lemma sql_update_claim_miss m taskId agentId now :
  ¬ (∃ r, m !! taskId = Some r ∧ status r = open ∧ assignee r = None) →
  sql_update (claim_where taskId) (claim_set agentId now) m = (m, 0%nat).
Proof.
  intros Hno. unfold sql_update. f_equal.
  - apply map_eq. intros k. rewrite map_lookup_imap.
    destruct (m !! k) as [r'|] eqn:E; simpl; [|done].
    destruct (claim_where taskId k r') eqn:W; [|done].
    apply claim_where_true in W. destruct W as (-> & ? & ?).
    destruct Hno. eauto.
  - rewrite claim_matches.
    destruct (m !! taskId) as [r|] eqn:E; [|apply map_size_empty].
    destruct (claim_where taskId taskId r) eqn:W; [|apply map_size_empty].
    apply claim_where_true in W. destruct W as (_ & ? & ?).
    destruct Hno. eauto.
Qed.

Lemma claimTask_hit db taskId agentId now r :
  tasks db !! taskId = Some r → status r = open → assignee r = None →
  claimTask db taskId agentId now =
    (true, {| tasks := <[taskId := claim_set agentId now r]> (tasks db);
              dependencies := dependencies db |}).
Proof.
  intros. unfold claimTask, claim_statement.
  by erewrite sql_update_claim_hit.
Qed.

Lemma claimTask_miss db taskId agentId now :
  ¬ claimable db taskId → claimTask db taskId agentId now = (false, db).
Proof.
  intros. unfold claimTask, claim_statement.
  rewrite sql_update_claim_miss by done. by destruct db.
Qed.

End ClaimFacts.

Section ClaimTheorems.
Implicit Types (db : Database) (r : TaskRow).

(** Once a claim has succeeded the task is no longer claimable. *)
Lemma claimed_not_claimable db taskId r' :
  status r' ≠ open →
  ¬ claimable {| tasks := <[taskId := r']> (tasks db);
                 dependencies := dependencies db |} taskId.
Proof.
  intros Hs (r & Hr & Hopen & _). simpl in Hr.
  rewrite lookup_insert_eq in Hr. by simplify_eq.
Qed.

(** C2, as the code has it.  [claimTask] returns true exactly when the
    task exists, is open and has no assignee.  When it returns true, the
    row of the task gets status [in_progress], the given agent as assignee
    and the clock reading of the call as [updated_at], whatever the value
    stored before, every other column, every other row and the
    dependencies staying as they were.  When it returns false the
    database is unchanged. *)
Theorem claimTask_spec db taskId agentId now :
  ((claimTask db taskId agentId now).1 = true ↔
     ∃ r, tasks db !! taskId = Some r ∧ status r = open ∧ assignee r = None)
  ∧ ((claimTask db taskId agentId now).1 = true →
     ∃ r r', tasks db !! taskId = Some r
       ∧ tasks (claimTask db taskId agentId now).2 !! taskId = Some r'
       ∧ status r' = in_progress
       ∧ assignee r' = Some agentId
       ∧ updated_at r' = now
       ∧ r' = claim_set agentId now r
       ∧ (∀ k, k ≠ taskId →
            tasks (claimTask db taskId agentId now).2 !! k = tasks db !! k)
       ∧ dependencies (claimTask db taskId agentId now).2 = dependencies db)
  ∧ ((claimTask db taskId agentId now).1 = false →
     (claimTask db taskId agentId now).2 = db).
Proof.
  destruct (decide (claimable db taskId)) as [(r & Hr & Hs & Ha)|Hno].
  - rewrite (claimTask_hit db taskId agentId now r Hr Hs Ha). simpl.
    split_and!; [split; eauto| |done].
    intros _. exists r, (claim_set agentId now r).
    rewrite lookup_insert_eq. split_and!; try done.
    intros k Hk. by rewrite lookup_insert_ne.
  - rewrite (claimTask_miss db taskId agentId now Hno). simpl.
    split_and!; [split; [done|intros H; by destruct Hno]|done|done].
Qed.

(** C2 does not hold as stated: the statement compares nothing with the
    value stored, so [updated_at] is advanced only when the clock reading
    is later than it.  Here the task was last written at [T1] and the call
    reads the clock at [T1] as well (the resolution of [toISOString] is
    one millisecond): the call returns true and [updated_at] is what it
    was. *)
Lemma claimTask_updated_at_counterexample :
  ¬ claim_advances db_one_open "fg-a3f8" "worker-1" T1.
Proof.
  intros Hadv. destruct (Hadv eq_refl) as (r & r' & Hr & Hr' & Hlater).
  vm_compute in Hr, Hr'. simplify_eq. vm_compute in Hlater. discriminate.
Qed.

(** With a clock that is behind the stored value (a row written on a
    machine whose clock is ahead), a successful call moves [updated_at]
    backwards. *)
Example claimTask_clock_behind :
  (claimTask db_one_open "fg-a3f8" "worker-1" "2026-02-10T08:59:59.000Z").1 = true
  ∧ ∃ r r', tasks db_one_open !! "fg-a3f8" = Some r
      ∧ tasks (claimTask db_one_open "fg-a3f8" "worker-1"
                 "2026-02-10T08:59:59.000Z").2 !! "fg-a3f8" = Some r'
      ∧ later (updated_at r) (updated_at r').
Proof.
  split; [reflexivity|].
  eexists _, _. split_and!; [reflexivity|vm_compute; reflexivity|reflexivity].
Qed.

(** C10.  A claim on an id that is not in the [tasks] relation returns
    false, the value a lost race returns, and leaves the database
    unchanged; the function has no other way to report a missing task. *)
Theorem claimTask_absent db taskId agentId now :
  tasks db !! taskId = None →
  claimTask db taskId agentId now = (false, db).
Proof.
  intros Hnone. apply claimTask_miss.
  intros (r & Hr & _). congruence.
Qed.

Lemma claimTask_absent_witness :
  claimTask empty_db "fg-a3f8" "worker-1" T2 = (false, empty_db).
Proof. apply (claimTask_absent empty_db "fg-a3f8" "worker-1" T2). reflexivity. Defined.

End ClaimTheorems.

Section ClaimRace.
Implicit Types (db : Database) (c : ClaimCall).

Lemma claim_statement_hit db taskId agentId now :
  claimable db taskId →
  ∃ r, tasks db !! taskId = Some r ∧
    claim_statement db taskId agentId now =
      ({| tasks := <[taskId := claim_set agentId now r]> (tasks db);
          dependencies := dependencies db |}, 1%nat).
Proof.
  intros (r & Hr & Hs & Ha). exists r. split; [done|].
  unfold claim_statement. by erewrite sql_update_claim_hit.
Qed.

Lemma claim_statement_miss db taskId agentId now :
  ¬ claimable db taskId →
  claim_statement db taskId agentId now = (db, 0%nat).
Proof.
  intros Hno. unfold claim_statement.
  rewrite sql_update_claim_miss by done. by destruct db.
Qed.

(** What one step of one caller does. *)
Lemma call_step_cases db c db' c' :
  call_step (db, c) (db', c') →
  call_task c' = call_task c ∧ ¬ returned c ∧
  ((db' = db ∧ ¬ returned c')
   ∨ (claimable db (call_task c) ∧ ¬ claimable db' (call_task c) ∧ won c')
   ∨ (¬ claimable db (call_task c) ∧ db' = db ∧ call_pc c' = Returned false)).
Proof.
  inversion 1 as [? ? now Hpc|? ? now ? changes Hpc Hst]; subst; simpl.
  - split_and!; [done|intros [b Hb]; congruence|].
    left. split; [done|]. intros [b Hb]. simpl in Hb. congruence.
  - split_and!; [done|intros [b Hb]; congruence|]. right.
    destruct (decide (claimable db (call_task c))) as [Hc|Hc].
    + left. destruct (claim_statement_hit db (call_task c) (call_agent c) now Hc)
        as (r & Hr & Heq).
      rewrite Heq in Hst. simplify_eq. split_and!; [done| |done].
      by apply claimed_not_claimable.
    + right. rewrite claim_statement_miss in Hst by done. by simplify_eq.
Qed.

Lemma race_inv_step taskId w w' :
  race_inv taskId w → race_step w w' → race_inv taskId w'.
Proof.
  intros (Ht1 & Ht2 & Hinv) Hstep.
  destruct Hstep as [db c1 c2 db' c1' Hs|db c1 c2 db' c2' Hs];
    simpl in *; apply call_step_cases in Hs as (Ht & Hnr & Hcases);
    unfold race_inv; simpl; (split_and!; [congruence..|]).
  - rewrite Ht1 in Hcases.
    destruct Hinv as [(Hc & Hn1 & Hn2)|(Hc & [[Hw _]|[Hw Hnw]])].
    + destruct Hcases as [[-> Hn]|[(_ & Hc' & Hw)|(Hc' & _)]]; [by left| |done].
      right. split; [done|]. left. split; [done|].
      intros Hw2. apply Hn2. by exists true.
    + destruct Hnr. by exists true.
    + right. destruct Hcases as [[-> Hn]|[(Hc' & _)|(_ & -> & Hf)]]; [|done|].
      * split; [done|]. right. split; [done|]. intros Hw'. apply Hn. by exists true.
      * split; [done|]. right. split; [done|]. unfold won. congruence.
  - rewrite Ht2 in Hcases.
    destruct Hinv as [(Hc & Hn1 & Hn2)|(Hc & [[Hw Hnw]|[Hw _]])].
    + destruct Hcases as [[-> Hn]|[(_ & Hc' & Hw)|(Hc' & _)]]; [by left| |done].
      right. split; [done|]. right. split; [done|].
      intros Hw1. apply Hn1. by exists true.
    + right. destruct Hcases as [[-> Hn]|[(Hc' & _)|(_ & -> & Hf)]]; [|done|].
      * split; [done|]. left. split; [done|]. intros Hw'. apply Hn. by exists true.
      * split; [done|]. left. split; [done|]. unfold won. congruence.
    + destruct Hnr. by exists true.
Qed.

Lemma race_inv_rtc taskId w w' :
  race_inv taskId w → rtc race_step w w' → race_inv taskId w'.
Proof. intros Hinv Hrun. induction Hrun; eauto using race_inv_step. Qed.

(** C3.  Two calls of [claimTask] for one open, unassigned task, their
    steps interleaved in any way: when both have returned, exactly one of
    them has returned true. *)
Theorem claim_race_exactly_one db taskId agent1 agent2 db' c1 c2 b1 b2 :
  claimable db taskId →
  rtc race_step (db, start_call taskId agent1, start_call taskId agent2)
                (db', c1, c2) →
  call_pc c1 = Returned b1 →
  call_pc c2 = Returned b2 →
  (b1 = true ∧ b2 = false) ∨ (b1 = false ∧ b2 = true).
Proof.
  intros Hc Hrun H1 H2.
  assert (race_inv taskId (db, start_call taskId agent1, start_call taskId agent2))
    as Hinit.
  { split_and!; [done..|]. left. split_and!; [done|by intros [??]..]. }
  destruct (race_inv_rtc _ _ _ Hinit Hrun) as (_ & _ & Hfin). simpl in Hfin.
  destruct Hfin as [(_ & Hn & _)|(_ & [[Hw Hnw]|[Hw Hnw]])].
  - destruct Hn. by exists b1.
  - left. unfold won in *. split; [congruence|].
    destruct b2; [|done]. by destruct Hnw.
  - right. unfold won in *. split; [|congruence].
    destruct b1; [|done]. by destruct Hnw.
Qed.

End ClaimRace.

Section ClaimRaceWitness.

Lemma claim_race_exactly_one_witness :
  rtc race_step race_start race_end ∧
  ((false = true ∧ true = false) ∨ (false = false ∧ true = true)).
Proof.
  assert (rtc race_step race_start race_end) as Hrun.
  { eapply rtc_l; [apply race_first, (step_clock _ _ T1); reflexivity|].
    eapply rtc_l; [apply race_second, (step_clock _ _ T2); reflexivity|].
    eapply rtc_l; [apply race_second; eapply (step_update _ _ T2);
                     [reflexivity|vm_compute; reflexivity]|].
    eapply rtc_l; [apply race_first; eapply (step_update _ _ T1);
                     [reflexivity|vm_compute; reflexivity]|].
    vm_compute. apply rtc_refl. }
  split; [exact Hrun|].
  apply (claim_race_exactly_one db_one_open "fg-a3f8" "worker-1" "worker-2"
           race_end.1.1 race_end.1.2 race_end.2 false true).
  - exists (sample_row open None 1 T1 T1). split_and!; reflexivity.
  - exact Hrun.
  - reflexivity.
  - reflexivity.
Defined.

End ClaimRaceWitness.

Section ReadyTheorems.
Implicit Types (db : Database) (d : Edge) (k : string) (r : TaskRow).

#[local] Instance ready_order_total : Total ready_order.
Proof.
  intros x y. unfold ready_order.
  destruct (Z.lt_trichotomy (priority x.2) (priority y.2)) as [?|[Heq|?]];
    [by left; left| |by right; left].
  destruct (total String.le (created_at x.2) (created_at y.2)).
  - left. by right.
  - right. right. by split.
Qed.

#[local] Instance ready_order_trans : Transitive ready_order.
Proof.
  intros x y z [Hxy|[Hxy Hc1]] [Hyz|[Hyz Hc2]]; unfold ready_order.
  - left. lia.
  - left. lia.
  - left. lia.
  - right. split; [lia|]. by etrans.
Qed.

(** The sub-select returns [k] exactly when [k] has a [blocks] edge to a
    task that is present and not closed. *)
Lemma elem_of_blocked_ids db k :
  k ∈ blocked_ids db ↔
  ∃ to blocker, (k, to, blocks) ∈ dependencies db
                ∧ tasks db !! to = Some blocker ∧ status blocker ≠ closed.
Proof.
  unfold blocked_ids. rewrite list_elem_of_fmap. split.
  - intros (d & -> & Hd). apply list_elem_of_filter in Hd as [Hu Hd].
    apply elem_of_elements in Hd. unfold unresolved_blocker in Hu.
    apply andb_true_iff in Hu as [Hty Hb].
    apply bool_decide_eq_true in Hty.
    destruct d as [[from to] ty]. unfold from_id, to_id, edge_type in *.
    simpl in *. subst ty.
    destruct (tasks db !! to) as [blocker|] eqn:E; [|done].
    apply bool_decide_eq_true in Hb. eauto.
  - intros (to & blocker & Hd & Hb & Hs). exists (k, to, blocks). split; [done|].
    apply list_elem_of_filter. split; [|by apply elem_of_elements].
    unfold unresolved_blocker, to_id, edge_type. cbn [fst snd]. rewrite Hb.
    apply andb_true_iff. split; by apply bool_decide_eq_true.
Qed.

Lemma ready_where_true db k r :
  ready_where db (k, r) = true ↔
  status r = open ∧ assignee r = None ∧ k ∉ blocked_ids db.
Proof.
  unfold ready_where. simpl.
  rewrite !andb_true_iff, !bool_decide_eq_true. tauto.
Qed.

(** C4.  [ready] returns exactly the rows of [tasks] that are open, have
    no assignee and have no [blocks] edge to a task whose status is not
    [closed]; each task appears once; the rows are in ascending order of
    priority and, within a priority, of [created_at].  The query is a
    function from the database to rows: it has no database to return. *)
Theorem ready_spec db :
  (∀ k r, (k, r) ∈ ready db ↔
     tasks db !! k = Some r ∧ status r = open ∧ assignee r = None ∧
     ¬ ∃ to blocker, (k, to, blocks) ∈ dependencies db
                     ∧ tasks db !! to = Some blocker ∧ status blocker ≠ closed)
  ∧ NoDup (ready db).*1
  ∧ StronglySorted ready_order (ready db).
Proof.
  split_and!.
  - intros k r. unfold ready. rewrite merge_sort_Permutation.
    rewrite list_elem_of_filter, elem_of_map_to_list, ready_where_true.
    rewrite elem_of_blocked_ids. tauto.
  - unfold ready. rewrite merge_sort_Permutation.
    eapply sublist_NoDup; [apply (NoDup_fst_map_to_list (tasks db))|].
    apply fmap_sublist, sublist_filter.
  - apply StronglySorted_merge_sort; apply _.
Qed.

(** A [blocks] edge whose target is not a task never counts as a
    blocker: the join with [tasks] finds no row for it. *)
Lemma blocked_ids_absent_target db from to ty k :
  tasks db !! to = None →
  k ∈ blocked_ids {| tasks := tasks db;
                     dependencies := {[ (from, to, ty) ]} ∪ dependencies db |}
  ↔ k ∈ blocked_ids db.
Proof.
  intros Hnone. rewrite !elem_of_blocked_ids. simpl. split.
  - intros (to' & b & Hd & Hb & Hs). exists to', b. split_and!; [|done..].
    apply elem_of_union in Hd as [Hd|Hd]; [|done].
    apply elem_of_singleton in Hd. simplify_eq.
  - intros (to' & b & Hd & Hb & Hs). exists to', b. split_and!; [|done..].
    apply elem_of_union. by right.
Qed.

(** The query by itself, off the schema: an edge whose target id is
    absent from the [tasks] relation finds no row to join with, so the
    result of [ready] is the same with and without that edge. *)
Lemma ready_join_skips_absent_target db from to ty :
  tasks db !! to = None →
  ready {| tasks := tasks db;
           dependencies := {[ (from, to, ty) ]} ∪ dependencies db |}
  = ready db.
Proof.
  intros Hnone. unfold ready. simpl. f_equal.
  apply list_filter_iff. intros [k r].
  rewrite !ready_where_true.
  by rewrite (blocked_ids_absent_target db from to ty k Hnone).
Qed.

End ReadyTheorems.

Section ReadyExamples.

Example ready_one_open :
  ready db_one_open = [("fg-a3f8", sample_row open None 1 T1 T1)].
Proof. vm_compute. reflexivity. Qed.

Example ready_dangling :
  ready db_dangling = [("fg-a3f8", sample_row open None 1 T1 T1)].
Proof. vm_compute. reflexivity. Qed.

End ReadyExamples.

Section IdGeneratorTheorems.
Local Open Scope N_scope.

Lemma toString36_go_acc fuel n acc :
  toString36_go fuel n acc = (toString36_go fuel n [] ++ acc)%list.
Proof.
  revert n acc. induction fuel as [|fuel IH]; intros n acc; simpl; [done|].
  destruct (n / 36 =? 0); [done|].
  rewrite (IH _ (_ :: acc)), (IH _ [_]). by rewrite <- app_assoc.
Qed.

Lemma div36_lt_pow2 n (f : nat) :
  n < 2 ^ N.of_nat (S f) → n / 36 < 2 ^ N.of_nat f.
Proof.
  intros Hn. apply N.Div0.div_lt_upper_bound.
  rewrite Nat2N.inj_succ, N.pow_succ_r' in Hn. lia.
Qed.

(** Any fuel that covers the bits of [n] gives the same digits. *)
Lemma toString36_go_fuel f1 f2 n acc :
  n < 2 ^ N.of_nat (S f1) → n < 2 ^ N.of_nat (S f2) →
  toString36_go (S f1) n acc = toString36_go (S f2) n acc.
Proof.
  revert f2 n acc. induction f1 as [|f1 IH]; intros f2 n acc H1 H2.
  - cbn [toString36_go]. apply div36_lt_pow2 in H1.
    change (2 ^ N.of_nat 0) with 1 in H1.
    apply N.lt_1_r in H1 as ->. by destruct f2.
  - cbn [toString36_go]. destruct (n / 36 =? 0) eqn:E; [by destruct f2|].
    apply N.eqb_neq in E. apply div36_lt_pow2 in H1, H2.
    destruct f2 as [|f2];
      [change (2 ^ N.of_nat 0) with 1 in H2; by apply N.lt_1_r in H2|].
    by apply IH.
Qed.

Lemma lt_pow2_log2 n : n < 2 ^ N.of_nat (S (N.to_nat (N.log2 n))).
Proof.
  rewrite Nat2N.inj_succ, N2Nat.id.
  destruct (N.eq_dec n 0) as [->|Hn]; [done|].
  apply N.log2_spec. lia.
Qed.

Lemma toString36_unfold n :
  toString36 n =
    if n / 36 =? 0 then [digit36 (n mod 36)]
    else (toString36 (n / 36) ++ [digit36 (n mod 36)])%list.
Proof.
  unfold toString36 at 1. cbn [toString36_go].
  destruct (n / 36 =? 0) eqn:E; [done|]. apply N.eqb_neq in E.
  rewrite toString36_go_acc. f_equal. unfold toString36.
  pose proof (div36_lt_pow2 n _ (lt_pow2_log2 n)) as Hlt.
  destruct (N.to_nat (N.log2 n)) as [|f] eqn:Ef;
    [change (2 ^ N.of_nat 0) with 1 in Hlt; by apply N.lt_1_r in Hlt|].
  apply toString36_go_fuel; [done|apply lt_pow2_log2].
Qed.

Lemma pad_slice_snoc k c s d :
  slice_last (S k) (padStart (S k) c (s ++ [d])) =
  (slice_last k (padStart k c s) ++ [d])%list.
Proof.
  assert (padStart (S k) c (s ++ [d]) = (padStart k c s ++ [d])%list) as ->.
  { unfold padStart. rewrite length_app. simpl.
    replace (S k - (length s + 1))%nat with (k - length s)%nat by lia.
    by rewrite app_assoc. }
  unfold slice_last. rewrite length_app. simpl.
  replace (length (padStart k c s) + 1 - S k)%nat
    with (length (padStart k c s) - k)%nat by lia.
  rewrite drop_app_le by lia. done.
Qed.

Lemma pad_slice_nil k c : slice_last k (padStart k c []) = replicate k c.
Proof.
  unfold slice_last, padStart. simpl.
  rewrite app_nil_r, length_replicate, Nat.sub_0_r, Nat.sub_diag. done.
Qed.

Lemma low_digits_small k n : n = 0 → low_digits k n = replicate k "0"%char.
Proof.
  intros ->. induction k as [|k IH]; [done|].
  cbn [low_digits]. change (0 / 36) with 0. rewrite IH.
  change (digit36 (0 mod 36)) with "0"%char.
  change (replicate (S k) "0"%char) with (replicate (1 + k) "0"%char).
  rewrite Nat.add_comm, replicate_add. done.
Qed.

(** Padding to [k] characters and keeping the last [k] leaves the [k] low
    digits. *)
Lemma encoded_low_digits k n :
  slice_last k (padStart k "0"%char (toString36 n)) = low_digits k n.
Proof.
  revert n. induction k as [|k IH]; intros n.
  - unfold slice_last. rewrite Nat.sub_0_r. apply drop_all.
  - rewrite toString36_unfold. cbn [low_digits].
    destruct (n / 36 =? 0) eqn:E.
    + apply N.eqb_eq in E.
      change [digit36 (n mod 36)] with ([] ++ [digit36 (n mod 36)])%list.
      rewrite pad_slice_snoc, pad_slice_nil.
      by rewrite low_digits_small.
    + by rewrite pad_slice_snoc, IH.
Qed.

Lemma digit36_alphabet d : d < 36 → digit36 d ∈ alphabet36.
Proof.
  intros Hd. apply list_elem_of_In, nth_In.
  change (length alphabet36) with 36%nat. lia.
Qed.

Lemma low_digits_alphabet k n : Forall (λ c, c ∈ alphabet36) (low_digits k n).
Proof.
  revert n. induction k as [|k IH]; intros n; [constructor|].
  cbn [low_digits]. apply Forall_app. split; [apply IH|].
  apply Forall_cons. split; [|constructor].
  apply digit36_alphabet. by apply N.mod_lt.
Qed.

Lemma low_digits_length k n : length (low_digits k n) = k.
Proof.
  revert n. induction k as [|k IH]; intros n; [done|].
  cbn [low_digits]. rewrite length_app, IH. simpl. lia.
Qed.

(** C7, as the generator has it.  The id is the prefix, a hyphen and the
    four low base-36 digits of the 32-bit draw; it is a function of the
    prefix and the draw alone, with no counter and no database among its
    arguments, so there is no test against the Index and no second
    draw. *)
Theorem generateTaskId_spec prefix bytes :
  generateTaskId prefix bytes =
    (prefix +:+ "-" +:+
     string_of_list_ascii (low_digits 4 (readUInt32BE bytes)))%string
  ∧ length (low_digits 4 (readUInt32BE bytes)) = 4%nat
  ∧ Forall (λ c, c ∈ alphabet36) (low_digits 4 (readUInt32BE bytes))
  ∧ low_digits 4 (readUInt32BE bytes) =
      [digit36 (readUInt32BE bytes / 36 / 36 / 36 mod 36);
       digit36 (readUInt32BE bytes / 36 / 36 mod 36);
       digit36 (readUInt32BE bytes / 36 mod 36);
       digit36 (readUInt32BE bytes mod 36)].
Proof.
  split_and!.
  - unfold generateTaskId. by rewrite encoded_low_digits.
  - apply low_digits_length.
  - apply low_digits_alphabet.
  - reflexivity.
Qed.

Example generateTaskId_a3f8 : generateTaskId "fg" bytes_a3f8 = "fg-a3f8"%string.
Proof. vm_compute. reflexivity. Qed.

Example toString36_max : toString36 4294967295 = list_ascii_of_string "1z141z3".
Proof. vm_compute. reflexivity. Qed.

(** C7 does not hold of the generator: the Index holds [fg-a3f8], the
    draw encodes to [a3f8], and the id returned is [fg-a3f8]. *)
Lemma generateTaskId_collision_counterexample :
  ¬ returns_fresh_id db_one_open "fg" bytes_a3f8.
Proof.
  unfold returns_fresh_id. rewrite generateTaskId_a3f8.
  intros Hfresh. apply Hfresh. apply elem_of_dom. by eexists.
Qed.

End IdGeneratorTheorems.

Section DepTreeTheorems.
Implicit Types (db : Database) (dt : TreeRow) (queue : list TreeRow).

Lemma dep_tree_step_guard db dt :
  ¬ depth dt < max_depth → dep_tree_step db dt = [].
Proof.
  intros Hd. unfold dep_tree_step.
  induction (elements (dependencies db)) as [|d l IH]; [done|].
  rewrite filter_cons_False by tauto. exact IH.
Qed.

Lemma dep_tree_step_depth db dt dt' :
  dt' ∈ dep_tree_step db dt → depth dt' = depth dt + 1 ∧ depth dt < max_depth.
Proof.
  unfold dep_tree_step. rewrite list_elem_of_fmap.
  intros (d & -> & Hd). apply list_elem_of_filter in Hd as [(_ & _ & ?) _]. done.
Qed.

(** The rows a row adds to the recursive table are paid for by its cost. *)
Lemma row_cost_step db dt :
  row_cost db dt = S (sum_list (row_cost db <$> dep_tree_step db dt)).
Proof.
  unfold row_cost. destruct (decide (depth dt < max_depth)) as [Hd|Hd].
  - replace (Z.to_nat (max_depth - depth dt))
      with (S (Z.to_nat (max_depth - (depth dt + 1)))) by lia.
    cbn [subtree_rows]. f_equal. f_equal.
    unfold dep_tree_step. rewrite <- !list_fmap_compose.
    rewrite (list_filter_iff
               (λ d, from_id d = task_id dt ∧ edge_type d = blocks
                     ∧ depth dt < max_depth)
               (λ d, from_id d = task_id dt ∧ edge_type d = blocks));
      [|tauto].
    done.
  - rewrite dep_tree_step_guard by done.
    replace (Z.to_nat (max_depth - depth dt)) with 0%nat by lia. done.
Qed.

Lemma sum_list_append (l1 l2 : list nat) :
  sum_list (l1 ++ l2) = (sum_list l1 + sum_list l2)%nat.
Proof. induction l1 as [|x l1 IH]; simpl; [done|]. rewrite IH. lia. Qed.

(** Fuel for every waiting row and its descendants empties the queue. *)
Lemma cte_run_enough db fuel queue :
  (sum_list (row_cost db <$> queue) ≤ fuel)%nat →
  ∃ visited, cte_run fuel (dep_tree_step db) queue = Some visited
             ∧ (length visited ≤ fuel)%nat.
Proof.
  revert queue. induction fuel as [|fuel IH]; intros queue Hcost.
  - destruct queue as [|dt rest].
    + exists []. split; [done|simpl; lia].
    + simpl in Hcost. rewrite row_cost_step in Hcost. lia.
  - destruct queue as [|dt rest].
    + exists []. split; [done|simpl; lia].
    + simpl in Hcost. rewrite row_cost_step in Hcost.
      destruct (IH (rest ++ dep_tree_step db dt)) as (visited & Hrun & Hlen).
      { rewrite fmap_app, sum_list_append. unfold fmap in *. lia. }
      exists (dt :: visited). cbn [cte_run]. rewrite Hrun.
      split; [done|simpl; lia].
Qed.

Lemma cte_run_more_fuel db fuel fuel' queue visited :
  cte_run fuel (dep_tree_step db) queue = Some visited →
  (fuel ≤ fuel')%nat →
  cte_run fuel' (dep_tree_step db) queue = Some visited.
Proof.
  revert fuel' queue visited.
  induction fuel as [|fuel IH]; intros fuel' queue visited Hrun Hle.
  - destruct queue; [|done]. by destruct fuel'.
  - destruct queue as [|dt rest]; [by destruct fuel'|].
    destruct fuel' as [|fuel']; [lia|]. cbn [cte_run] in *.
    destruct (cte_run fuel _ _) as [v|] eqn:E; [|done].
    rewrite (IH fuel' _ v E) by lia. done.
Qed.

(** The depth guard: no row beyond [max_depth] enters the table. *)
Lemma cte_run_depth db fuel queue visited :
  Forall depth_in_bound queue →
  cte_run fuel (dep_tree_step db) queue = Some visited →
  Forall depth_in_bound visited.
Proof.
  revert queue visited.
  induction fuel as [|fuel IH]; intros queue visited Hq Hrun.
  - destruct queue; [|done]. simpl in Hrun. by simplify_eq.
  - destruct queue as [|dt rest]; [simpl in Hrun; by simplify_eq|].
    cbn [cte_run] in Hrun.
    destruct (cte_run fuel _ _) as [v|] eqn:E; [|done].
    simpl in Hrun. simplify_eq.
    apply Forall_cons in Hq as [Hdt Hrest].
    apply Forall_cons. split; [done|].
    apply (IH (rest ++ dep_tree_step db dt)); [|done].
    apply Forall_app. split; [done|].
    apply Forall_forall. intros dt' Hin.
    apply dep_tree_step_depth in Hin as [Heq Hlt].
    unfold depth_in_bound in *. lia.
Qed.

Lemma dep_tree_select_depth db visited :
  Forall depth_in_bound visited →
  Forall (λ r, 0 ≤ r_depth r ≤ max_depth) (dep_tree_select db visited).
Proof.
  intros Hv. unfold dep_tree_select. rewrite merge_sort_Permutation.
  apply Forall_forall. intros r Hr.
  apply list_elem_of_omap in Hr as (dt & Hdt & Hjoin).
  rewrite Forall_forall in Hv. specialize (Hv dt Hdt).
  unfold dep_tree_join in Hjoin.
  destruct (tasks db !! task_id dt); simpl in Hjoin; by simplify_eq.
Qed.

Lemma dep_tree_select_length db visited :
  (length (dep_tree_select db visited) ≤ length visited)%nat.
Proof.
  unfold dep_tree_select. rewrite merge_sort_Permutation.
  induction visited as [|dt visited IH]; [done|].
  unfold omap in *. simpl. destruct (dep_tree_join db dt); simpl; lia.
Qed.

(** C9.  For every database, cyclic edge sets included, the traversal
    from any root ends: the recursive table is completed within the fuel
    [row_cost] computes, and with any larger fuel the result is the same
    list of rows.  No row of the table and no row of the result has a
    depth above [max_depth]. *)
Theorem dep_tree_terminates db root rootPath :
  ∃ visited rows,
    cte_run (row_cost db (dep_tree_anchor root rootPath)) (dep_tree_step db)
            [dep_tree_anchor root rootPath] = Some visited
    ∧ dep_tree db root rootPath = Some rows
    ∧ rows = dep_tree_select db visited
    ∧ (∀ fuel, (row_cost db (dep_tree_anchor root rootPath) ≤ fuel)%nat →
         dep_tree_query fuel db root rootPath = Some rows)
    ∧ Forall (λ dt, 0 ≤ depth dt ≤ max_depth) visited
    ∧ Forall (λ r, 0 ≤ r_depth r ≤ max_depth) rows
    ∧ (length rows ≤ length visited
       ≤ row_cost db (dep_tree_anchor root rootPath))%nat.
Proof.
  set (anchor := dep_tree_anchor root rootPath).
  destruct (cte_run_enough db (row_cost db anchor) [anchor])
    as (visited & Hrun & Hlen);
    [change (row_cost db anchor + 0 ≤ row_cost db anchor)%nat; lia|].
  assert (Forall depth_in_bound visited) as Hdepth.
  { eapply cte_run_depth; [|exact Hrun].
    apply Forall_cons. split; [|constructor].
    unfold depth_in_bound, anchor, max_depth. simpl. lia. }
  exists visited, (dep_tree_select db visited). split_and!.
  - done.
  - unfold dep_tree, dep_tree_query. fold anchor. by rewrite Hrun.
  - done.
  - intros fuel Hfuel. unfold dep_tree_query. fold anchor.
    by rewrite (cte_run_more_fuel db _ fuel _ _ Hrun Hfuel).
  - done.
  - by apply dep_tree_select_depth.
  - apply dep_tree_select_length.
  - done.
Qed.

(** On the two-task cycle the traversal alternates between the tasks
    and stops at depth 10. *)
Example dep_tree_cycle :
  fmap (M := option) (fmap (M := list) (λ r, (r_depth r, r_id r)))
    (dep_tree db_cycle "fg-a3f8" "fg-a3f8")
  = Some [(0, "fg-a3f8"); (1, "fg-b2c1"); (2, "fg-a3f8"); (3, "fg-b2c1");
          (4, "fg-a3f8"); (5, "fg-b2c1"); (6, "fg-a3f8"); (7, "fg-b2c1");
          (8, "fg-a3f8"); (9, "fg-b2c1"); (10, "fg-a3f8")]%string.
Proof. vm_compute. reflexivity. Qed.

End DepTreeTheorems.

Section SyncTheorems.
Implicit Types (db : Database) (m : gmap string TaskRow) (t : Task)
               (lines : list Line) (k : string) (e : Edge).

Lemma later_asym a b : later a b → ¬ later b a.
Proof.
  unfold later, String.ltb. rewrite (String.compare_antisym a b).
  destruct (String.compare b a); simpl; congruence.
Qed.

Lemma later_irrefl a : ¬ later a a.
Proof. intros H. by apply (later_asym a a). Qed.


Lemma upsert_held_not_newer t r :
  ¬ later (updated_at (row t)) (updated_at r) →
  upsert_held t (Some r) = Some r.
Proof. intros Hl. unfold upsert_held. by rewrite decide_False. Qed.

(** A snapshot that is older than the row held does not replace it. *)
Lemma upsert_older_keeps t m held :
  m !! id t = Some held →
  later (updated_at held) (updated_at (row t)) →
  upsert t m = m.
Proof.
  intros Hheld Hlater. unfold upsert. rewrite Hheld.
  destruct (decide _) as [Hl|]; [|done]. by apply later_asym in Hl.
Qed.

Lemma upsert_lookup t m k :
  upsert t m !! k =
    if decide (id t = k) then upsert_held t (m !! k) else m !! k.
Proof.
  unfold upsert, upsert_held. destruct (decide (id t = k)) as [<-|Hne].
  - destruct (m !! id t) as [held|] eqn:E.
    + destruct (decide _); [by rewrite lookup_insert_eq|done].
    + by rewrite lookup_insert_eq.
  - destruct (m !! id t) as [held|] eqn:E.
    + destruct (decide _); [by rewrite lookup_insert_ne|done].
    + by rewrite lookup_insert_ne.
Qed.

(** The row the first pass leaves for [k] is decided by the snapshots
    for [k] alone, taken in file order. *)
Lemma import_tasks_lookup lines m k :
  import_tasks lines m !! k =
    foldl (λ held t, upsert_held t held) (m !! k) (snapshots_of k lines).
Proof.
  unfold import_tasks, snapshots_of. revert m.
  induction lines as [|l lines IH]; intros m; [done|].
  cbn [foldl]. rewrite IH. destruct l as [t|raw]; cbn [import_line omap list_omap].
  - rewrite upsert_lookup. destruct (decide (id t = k)); done.
  - done.
Qed.


Lemma elem_of_edges_of t e :
  e ∈ edges_of t ↔
  ∃ d, d ∈ task_dependencies t ∧ e = (id t, dep_id d, dep_type d).
Proof.
  unfold edges_of. rewrite elem_of_list_to_set, list_elem_of_fmap.
  split; intros (d & ? & ?); exists d; done.
Qed.

(** The edges after the second pass: those held before, and those of
    every snapshot whose record was retained. *)
Lemma elem_of_import_edges m lines ds e :
  e ∈ foldl (import_edges m) ds lines ↔
  e ∈ ds ∨ ∃ t, Snapshot t ∈ lines ∧ retained m t = true ∧ e ∈ edges_of t.
Proof.
  revert ds. induction lines as [|l lines IH]; intros ds; cbn [foldl].
  - split; [by left|]. intros [?|(t & Hin & _)]; [done|].
    by apply not_elem_of_nil in Hin.
  - rewrite IH. destruct l as [t|raw]; cbn [import_edges].
    + destruct (retained m t) eqn:Hret.
      * rewrite elem_of_union. split.
        -- intros [[He|He]|(t' & Hin & ? & ?)].
           ++ right. exists t. split_and!; [apply list_elem_of_here|done..].
           ++ by left.
           ++ right. exists t'. split_and!; [by apply list_elem_of_further|done..].
        -- intros [He|(t' & Hin & Hr & He)]; [left; by right|].
           apply elem_of_cons in Hin as [Heq|Hin].
           ++ simplify_eq. left. by left.
           ++ right. eauto.
      * split.
        -- intros [He|(t' & Hin & ? & ?)]; [by left|].
           right. exists t'. split_and!; [by apply list_elem_of_further|done..].
        -- intros [He|(t' & Hin & Hr & He)]; [by left|].
           apply elem_of_cons in Hin as [Heq|Hin].
           ++ simplify_eq. congruence.
           ++ right. eauto.
    + split.
      * intros [He|(t' & Hin & ? & ?)]; [by left|].
        right. exists t'. split_and!; [by apply list_elem_of_further|done..].
      * intros [He|(t' & Hin & Hr & He)]; [by left|].
        apply elem_of_cons in Hin as [Heq|Hin]; [done|].
        right. eauto.
Qed.


End SyncTheorems.

Section SyncWitness.


Example import_later_last :
  tasks (import store_later_last empty_db) !! "fg-a3f8" = Some (row snap_T2).
Proof. vm_compute. reflexivity. Qed.

(** The rule "the last occurrence of a given id wins" keeps the older
    snapshot when the later one comes first in the file; the upsert on
    [updated_at] does not. *)
Remark import_scan_order_differs :
  import_scan_order store_later_first ∅ !! "fg-a3f8" = Some (row snap_T1)
  ∧ import_tasks store_later_first ∅ !! "fg-a3f8" = Some (row snap_T2).
Proof. split; vm_compute; reflexivity. Qed.

End SyncWitness.

Section RoundTrip.
Implicit Types (db : Database) (k : string) (e : Edge).

Lemma export_unfold db : export db = export_line db <$> map_to_list (tasks db).
Proof. done. Qed.

(** [export] writes one line per task: the snapshots for [k] are the
    single line of its row, or none. *)
Lemma snapshots_of_export_lines db k (l : list (string * TaskRow)) :
  snapshots_of k (export_line db <$> l) =
    omap (λ kr, if decide (kr.1 = k)
                then Some {| id := kr.1; row := kr.2;
                             task_dependencies := outbound db kr.1 |}
                else None) l.
Proof.
  unfold snapshots_of.
  induction l as [|kr l IH]; [done|].
  simpl. unfold omap, fmap in IH. by rewrite IH.
Qed.

Lemma omap_key_absent db k (l : list (string * TaskRow)) :
  k ∉ l.*1 →
  omap (λ kr, if decide (kr.1 = k)
              then Some {| id := kr.1; row := kr.2;
                           task_dependencies := outbound db kr.1 |}
              else None) l = [].
Proof.
  induction l as [|kr l IH]; [done|]. intros Hk.
  rewrite fmap_cons in Hk. apply not_elem_of_cons in Hk as [Hne Hk].
  cbn [omap list_omap]. rewrite decide_False by done. by apply IH.
Qed.

Lemma omap_key_present db k r (l : list (string * TaskRow)) :
  NoDup l.*1 → (k, r) ∈ l →
  omap (λ kr, if decide (kr.1 = k)
              then Some {| id := kr.1; row := kr.2;
                           task_dependencies := outbound db kr.1 |}
              else None) l
  = [ {| id := k; row := r; task_dependencies := outbound db k |} ].
Proof.
  induction l as [|kr l IH]; intros Hnd Hin; [by apply not_elem_of_nil in Hin|].
  rewrite fmap_cons in Hnd. apply NoDup_cons in Hnd as [Hfresh Hnd].
  cbn [omap list_omap]. apply elem_of_cons in Hin as [<-|Hin].
  - cbn [fst snd]. rewrite decide_True by done.
    f_equal. by apply omap_key_absent.
  - rewrite decide_False.
    + by apply IH.
    + intros Heq. apply Hfresh. rewrite Heq.
      apply list_elem_of_fmap. by exists (k, r).
Qed.

Lemma import_export_tasks db m :
  m = ∅ → import_tasks (export db) m = tasks db.
Proof.
  intros ->. apply map_eq. intros k.
  rewrite import_tasks_lookup, lookup_empty, export_unfold.
  pose proof (NoDup_fst_map_to_list (tasks db)) as Hnd.
  rewrite snapshots_of_export_lines.
  destruct (tasks db !! k) as [r|] eqn:E.
  - rewrite (omap_key_present db k r) by (done || by apply elem_of_map_to_list).
    done.
  - rewrite omap_key_absent; [done|].
    intros Hin. apply list_elem_of_fmap in Hin as ([k' r'] & -> & Hin).
    apply elem_of_map_to_list in Hin. simpl in E. congruence.
Qed.

Lemma elem_of_outbound db k d :
  d ∈ outbound db k ↔ (k, dep_id d, dep_type d) ∈ dependencies db.
Proof.
  unfold outbound. rewrite list_elem_of_fmap. split.
  - intros ([[from to] ty] & -> & He).
    apply list_elem_of_filter in He as [Hfrom He].
    apply elem_of_elements in He. unfold from_id in Hfrom. simpl in *.
    by subst.
  - intros He. exists (k, dep_id d, dep_type d). split; [by destruct d|].
    apply list_elem_of_filter. split; [done|]. by apply elem_of_elements.
Qed.

Lemma elem_of_export db t :
  Snapshot t ∈ export db ↔
  ∃ r, tasks db !! id t = Some r
       ∧ t = {| id := id t; row := r; task_dependencies := outbound db (id t) |}.
Proof.
  unfold export. rewrite list_elem_of_fmap. split.
  - intros ([k r] & Heq & Hin). apply elem_of_map_to_list in Hin.
    unfold export_line in Heq. simpl in Heq. simplify_eq. simpl. eauto.
  - intros (r & Hr & Ht). exists (id t, r). split.
    + unfold export_line. simpl. by rewrite <- Ht.
    + by apply elem_of_map_to_list.
Qed.

Lemma Database_eq db1 db2 :
  tasks db1 = tasks db2 → dependencies db1 = dependencies db2 → db1 = db2.
Proof. destruct db1, db2. simpl. by intros -> ->. Qed.

(** C8.  Exporting an Index and importing the lines into an empty Index
    gives back the same [tasks] relation, every row with every column,
    and the same dependency list for every task.  (An edge whose
    [from_id] is no task belongs to no snapshot; the foreign key of
    the schema excludes such edges, and then the whole Index is
    reproduced.) *)
Theorem export_import_roundtrip db :
  tasks (import (export db) empty_db) = tasks db
  ∧ (∀ e, e ∈ dependencies (import (export db) empty_db) ↔
          e ∈ dependencies db ∧ is_Some (tasks db !! from_id e))
  ∧ ((∀ e, e ∈ dependencies db → is_Some (tasks db !! from_id e)) →
     import (export db) empty_db = db).
Proof.
  assert (tasks (import (export db) empty_db) = tasks db) as Htasks.
  { unfold import. simpl. by apply import_export_tasks. }
  assert (∀ e, e ∈ dependencies (import (export db) empty_db) ↔
               e ∈ dependencies db ∧ is_Some (tasks db !! from_id e)) as Hdeps.
  { intros e. unfold import. cbn [dependencies empty_db tasks].
    rewrite import_export_tasks by done.
    rewrite elem_of_import_edges. split.
    - intros [He|(t & Hin & _ & Het)]; [by apply not_elem_of_empty in He|].
      apply elem_of_export in Hin as (r & Hr & Ht).
      apply elem_of_edges_of in Het as (d & Hd & ->).
      rewrite Ht in Hd. simpl in Hd. apply elem_of_outbound in Hd.
      split; [done|]. unfold from_id. simpl. eauto.
    - intros [He [r Hr]]. right.
      exists {| id := from_id e; row := r;
                task_dependencies := outbound db (from_id e) |}.
      split_and!.
      + apply elem_of_export. simpl. eauto.
      + by apply bool_decide_eq_true.
      + apply elem_of_edges_of. simpl.
        exists {| dep_id := to_id e; dep_type := edge_type e |}. split.
        * apply elem_of_outbound. simpl. by destruct e as [[??]?].
        * by destruct e as [[??]?]. }
  split_and!; [done..|].
  intros Hfk. apply Database_eq; [done|].
  apply set_eq. intros e. rewrite Hdeps. split; [tauto|]. intros He. eauto.
Qed.

Example export_import_cycle :
  import (export db_cycle) empty_db = db_cycle.
Proof. vm_compute. reflexivity. Qed.

End RoundTrip.

Section IdGeneratorCollisions.
Local Open Scope N_scope.

Lemma value36_digit36 d : d < 36 → value36 (digit36 d) = d.
Proof.
  intros Hd. rewrite <- (N2Nat.id d) at 2.
  assert (N.to_nat d < 36)%nat as Hn by lia.
  unfold digit36, value36. f_equal.
  destruct (N.to_nat d) as [|n]; [reflexivity|].
  do 35 (destruct n as [|n]; [reflexivity|]). lia.
Qed.

Lemma parse36_snoc s c : parse36 (s ++ [c]) = parse36 s * 36 + value36 c.
Proof. unfold parse36. by rewrite foldl_snoc. Qed.

Lemma parse36_low_digits k n : parse36 (low_digits k n) = n mod 36 ^ N.of_nat k.
Proof.
  revert n. induction k as [|k IH]; intros n.
  - simpl. by rewrite N.mod_1_r.
  - cbn [low_digits]. rewrite parse36_snoc, IH.
    rewrite value36_digit36 by by apply N.mod_lt.
    rewrite Nat2N.inj_succ, N.pow_succ_r', N.Div0.mod_mul_r.
    by rewrite N.add_comm, (N.mul_comm 36).
Qed.

(** Decoding the numeral [toString36] writes gives the number back. *)
Lemma parse36_toString36_aux n : parse36 (toString36 n) = n.
Proof.
  induction n as [n IH] using (well_founded_induction N.lt_wf_0).
  rewrite toString36_unfold. destruct (n / 36 =? 0) eqn:E.
  - apply N.eqb_eq in E. apply N.div_small_iff in E; [|done].
    change [digit36 (n mod 36)] with ([] ++ [digit36 (n mod 36)])%list.
    rewrite parse36_snoc, value36_digit36 by by apply N.mod_lt.
    rewrite N.mod_small by done. done.
  - apply N.eqb_neq in E. rewrite parse36_snoc.
    rewrite value36_digit36 by by apply N.mod_lt.
    rewrite IH.
    + rewrite N.mul_comm. symmetry. apply N.div_mod'.
    + apply N.div_lt; [|done].
      destruct (N.eq_dec n 0) as [->|]; [done|lia].
Qed.

Lemma split36 r1 r2 q1 q2 :
  r1 < 36 → r2 < 36 → r1 + 36 * q1 = r2 + 36 * q2 → r1 = r2 ∧ q1 = q2.
Proof. lia. Qed.

Lemma low_digits_mod k n m :
  n mod 36 ^ N.of_nat k = m mod 36 ^ N.of_nat k → low_digits k n = low_digits k m.
Proof.
  revert n m. induction k as [|k IH]; intros n m Hmod; [done|].
  rewrite Nat2N.inj_succ, N.pow_succ_r', !N.Div0.mod_mul_r in Hmod.
  assert (n mod 36 = m mod 36 ∧
          (n / 36) mod 36 ^ N.of_nat k = (m / 36) mod 36 ^ N.of_nat k) as [H0 H1].
  { apply split36; [by apply N.mod_lt..|done]. }
  cbn [low_digits]. by rewrite H0, (IH _ _ H1).
Qed.

Lemma string_app_cons a (s t : string) :
  (String a s +:+ t)%string = String a (s +:+ t).
Proof. reflexivity. Qed.

Lemma string_length_app (s t : string) :
  String.length (s +:+ t) = (String.length s + String.length t)%nat.
Proof.
  induction s as [|a s IH]; [done|].
  rewrite string_app_cons. simpl. by rewrite IH.
Qed.

(** Two strings that end in tails of the same length are equal only when
    the heads and the tails are. *)
Lemma string_app_inj_tail (p1 p2 t1 t2 : string) :
  String.length t1 = String.length t2 →
  (p1 +:+ t1 = p2 +:+ t2)%string → p1 = p2 ∧ t1 = t2.
Proof.
  revert p2. induction p1 as [|a p1 IH]; intros [|b p2] Hlen Heq;
    rewrite ?string_app_cons in Heq; change ("" +:+ ?t)%string with t in Heq.
  - done.
  - subst t1. simpl in Hlen. rewrite string_length_app in Hlen. lia.
  - subst t2. simpl in Hlen. rewrite string_length_app in Hlen. lia.
  - injection Heq as -> Heq. destruct (IH p2 Hlen Heq) as [-> ->]. done.
Qed.

Lemma string_of_list_ascii_length l :
  String.length (string_of_list_ascii l) = length l.
Proof. induction l as [|c l IH]; simpl; [done|]. by rewrite IH. Qed.

Lemma string_of_list_ascii_inj l1 l2 :
  string_of_list_ascii l1 = string_of_list_ascii l2 → l1 = l2.
Proof.
  intros H. apply (f_equal list_ascii_of_string) in H.
  by rewrite !list_ascii_of_string_of_list_ascii in H.
Qed.

Lemma generateTaskId_low_digits prefix bytes :
  generateTaskId prefix bytes =
    (prefix +:+ "-" +:+ string_of_list_ascii (low_digits 4 (readUInt32BE bytes)))%string.
Proof. unfold generateTaskId. by rewrite encoded_low_digits. Qed.

(** X1.  Two calls of [generateTaskId] return the same id exactly when
    they are given the same prefix and their draws agree modulo 36^4: the
    [slice(-4)] keeps 1,679,616 suffixes of the 2^32 draws, and ids of
    different prefixes never coincide. *)
Theorem generateTaskId_same_id prefix1 bytes1 prefix2 bytes2 :
  generateTaskId prefix1 bytes1 = generateTaskId prefix2 bytes2 ↔
  prefix1 = prefix2 ∧
  readUInt32BE bytes1 mod 1679616 = readUInt32BE bytes2 mod 1679616.
Proof.
  rewrite !generateTaskId_low_digits. split.
  - intros Heq. apply string_app_inj_tail in Heq as [-> Htail].
    + split; [done|]. apply String.app_inj in Htail.
      apply string_of_list_ascii_inj in Htail.
      apply (f_equal parse36) in Htail.
      by rewrite !parse36_low_digits in Htail.
    + by rewrite !string_length_app, !string_of_list_ascii_length,
        !low_digits_length.
  - intros [-> Hmod]. by rewrite (low_digits_mod 4 _ _ Hmod).
Qed.

Lemma toString36_alphabet n : Forall (λ c, c ∈ alphabet36) (toString36 n).
Proof.
  induction n as [n IH] using (well_founded_induction N.lt_wf_0).
  rewrite toString36_unfold.
  assert (digit36 (n mod 36) ∈ alphabet36) as Hd
    by by apply digit36_alphabet, N.mod_lt.
  destruct (n / 36 =? 0) eqn:E.
  - by apply Forall_cons.
  - apply N.eqb_neq in E. apply Forall_app. split; [|by apply Forall_cons].
    apply IH, N.div_lt; [|done]. destruct (N.eq_dec n 0) as [->|]; [done|lia].
Qed.

Lemma toString36_leading_zero n :
  head (toString36 n) = Some "0"%char → n = 0.
Proof.
  induction n as [n IH] using (well_founded_induction N.lt_wf_0).
  rewrite toString36_unfold. destruct (n / 36 =? 0) eqn:E.
  - apply N.eqb_eq in E. apply N.div_small_iff in E; [|done].
    simpl. intros [= Hzero].
    assert (value36 (digit36 (n mod 36)) = value36 "0"%char) as Hv
      by by rewrite Hzero.
    rewrite value36_digit36 in Hv by by apply N.mod_lt.
    rewrite N.mod_small in Hv by done. exact Hv.
  - apply N.eqb_neq in E. intros Hhead. exfalso. apply E.
    apply IH.
    + apply N.div_lt; [|done]. destruct (N.eq_dec n 0) as [->|]; [done|lia].
    + destruct (toString36 (n / 36)) as [|c l] eqn:Hs; [|exact Hhead].
      pose proof (parse36_toString36_aux (n / 36)) as Hp.
      rewrite Hs in Hp. simpl in Hp. by rewrite <- Hp in E.
Qed.

(** A number below 36^k, k at least 1, is written with at most k digits,
    and every number with at least one. *)
Lemma toString36_length k n :
  n < 36 ^ N.of_nat (S k) → (1 ≤ length (toString36 n) ≤ S k)%nat.
Proof.
  revert n. induction k as [|k IH]; intros n Hn; rewrite toString36_unfold.
  - change (36 ^ N.of_nat 1) with 36 in Hn.
    rewrite (N.div_small n 36 Hn). simpl. lia.
  - destruct (n / 36 =? 0) eqn:E; [simpl; lia|].
    rewrite length_app. simpl.
    assert (n / 36 < 36 ^ N.of_nat (S k)) as Hq.
    { apply N.Div0.div_lt_upper_bound.
      rewrite (Nat2N.inj_succ (S k)), N.pow_succ_r' in Hn. exact Hn. }
    specialize (IH _ Hq). lia.
Qed.

Lemma readUInt32BE_bound bytes : readUInt32BE bytes < 4294967296.
Proof.
  unfold readUInt32BE.
  pose proof (Byte.to_N_bounded (byte0 bytes)).
  pose proof (Byte.to_N_bounded (byte1 bytes)).
  pose proof (Byte.to_N_bounded (byte2 bytes)).
  pose proof (Byte.to_N_bounded (byte3 bytes)).
  lia.
Qed.

(** X2.  On the number that [readUInt32BE] reads from the four bytes,
    which is below 2^32, [toString36] writes a numeral of it: every
    character is a digit of the alphabet, there is no leading zero
    except for the numeral of zero itself, decoding the numeral gives
    the number back, so different draws are written differently, and
    the numeral has between one and seven digits, of which [slice(-4)]
    keeps the last four. *)
Theorem toString36_numeral bytes :
  parse36 (toString36 (readUInt32BE bytes)) = readUInt32BE bytes
  ∧ Forall (λ c, c ∈ alphabet36) (toString36 (readUInt32BE bytes))
  ∧ (head (toString36 (readUInt32BE bytes)) = Some "0"%char →
     readUInt32BE bytes = 0)
  ∧ (1 ≤ length (toString36 (readUInt32BE bytes)) ≤ 7)%nat.
Proof.
  split; [|split; [|split]].
  - apply parse36_toString36_aux.
  - apply toString36_alphabet.
  - apply toString36_leading_zero.
  - apply (toString36_length 6).
    pose proof (readUInt32BE_bound bytes) as Hb.
    change (36 ^ N.of_nat 7) with 78364164096. lia.
Qed.

End IdGeneratorCollisions.

Section ClaimComposition.
Implicit Types (db : Database) (k : string) (r : TaskRow).

Lemma schema_ok_one_open : schema_ok db_one_open.
Proof.
  split; unfold db_one_open; simpl.
  - intros k r Hr. apply lookup_singleton_Some in Hr as [_ <-].
    unfold priority_ok. simpl. lia.
  - intros k r Hr p Hp. apply lookup_singleton_Some in Hr as [_ <-]. done.
  - intros e He. by apply not_elem_of_empty in He.
Defined.

(** What [claimTask] does, by cases on whether the task can be claimed. *)
Lemma claimTask_cases db k agentId now :
  (∃ r, tasks db !! k = Some r ∧ status r = open ∧ assignee r = None ∧
        claimTask db k agentId now =
          (true, {| tasks := <[k := claim_set agentId now r]> (tasks db);
                    dependencies := dependencies db |}))
  ∨ (¬ claimable db k ∧ claimTask db k agentId now = (false, db)).
Proof.
  destruct (decide (claimable db k)) as [(r & Hr & Hs & Ha)|Hno].
  - left. exists r. split_and!; [done..|]. by apply claimTask_hit.
  - right. split; [done|]. by apply claimTask_miss.
Qed.

(** X3.  Whatever a first call of [claimTask] for a task did, a later
    call for the same task, by any agent at any time, returns false and
    leaves the database as the first call left it: a claim is never taken
    over and never renewed by claiming again. *)
Theorem claimTask_again db k agent1 now1 agent2 now2 :
  claimTask (claimTask db k agent1 now1).2 k agent2 now2
  = (false, (claimTask db k agent1 now1).2).
Proof.
  destruct (claimTask_cases db k agent1 now1)
    as [(r & Hr & Hs & Ha & ->)|[Hno ->]]; simpl.
  - apply claimTask_miss. by apply claimed_not_claimable.
  - by apply claimTask_miss.
Qed.

(** X4.  The UPDATE of [claimTask] keeps every constraint of the schema:
    the priority CHECK, the foreign key of [parent_id] and the foreign
    keys of [dependencies] hold after the call if they held before, and
    the set of task ids is the same.  The statement can therefore not be
    refused by SQLite on a constraint. *)
Theorem claimTask_keeps_schema db k agentId now :
  schema_ok db →
  schema_ok (claimTask db k agentId now).2
  ∧ dom (tasks (claimTask db k agentId now).2) = dom (tasks db).
Proof.
  intros [Hprio Hparent Hfk].
  destruct (claimTask_cases db k agentId now)
    as [(r & Hr & Hs & Ha & ->)|[Hno ->]]; simpl; [|done].
  assert (∀ j, is_Some (tasks db !! j) →
               is_Some (<[k := claim_set agentId now r]> (tasks db) !! j)) as Hsome.
  { intros j Hj. destruct (decide (k = j)) as [->|Hne].
    - rewrite lookup_insert_eq. eauto.
    - by rewrite lookup_insert_ne. }
  split.
  - split; simpl.
    + intros j rj Hj. destruct (decide (k = j)) as [->|Hne].
      * rewrite lookup_insert_eq in Hj. simplify_eq. apply (Hprio j r Hr).
      * rewrite lookup_insert_ne in Hj by done. by apply (Hprio j).
    + intros j rj Hj p Hp. apply Hsome.
      destruct (decide (k = j)) as [->|Hne].
      * rewrite lookup_insert_eq in Hj. simplify_eq. by apply (Hparent j r Hr).
      * rewrite lookup_insert_ne in Hj by done. by apply (Hparent j rj).
    + intros e He. destruct (Hfk e He). split; by apply Hsome.
  - apply set_eq. intros j. rewrite !elem_of_dom. split; [|apply Hsome].
    destruct (decide (k = j)) as [->|Hne].
    + intros _. eauto.
    + by rewrite lookup_insert_ne.
Qed.

Lemma claimTask_keeps_schema_witness :
  schema_ok (claimTask db_one_open "fg-a3f8" "worker-1" T2).2
  ∧ dom (tasks (claimTask db_one_open "fg-a3f8" "worker-1" T2).2)
    = dom (tasks db_one_open).
Proof.
  apply (claimTask_keeps_schema db_one_open "fg-a3f8" "worker-1" T2).
  exact schema_ok_one_open.
Defined.

(** Membership in the result of [ready]. *)
Lemma elem_of_ready db k r :
  (k, r) ∈ ready db ↔
  tasks db !! k = Some r ∧ status r = open ∧ assignee r = None
  ∧ k ∉ blocked_ids db.
Proof.
  unfold ready. rewrite merge_sort_Permutation.
  rewrite list_elem_of_filter, elem_of_map_to_list, ready_where_true. tauto.
Qed.

Lemma NoDup_ready db : NoDup (ready db).
Proof.
  unfold ready. rewrite merge_sort_Permutation.
  apply NoDup_filter, NoDup_map_to_list.
Qed.

(** Two results of [ready] that list the same rows up to a condition on
    the id are permutations of each other. *)
Lemma ready_filter_Permutation db db' (P : string * TaskRow → Prop)
    `{∀ kr, Decision (P kr)} :
  (∀ k r, (k, r) ∈ ready db' ↔ (k, r) ∈ ready db ∧ P (k, r)) →
  ready db' ≡ₚ filter P (ready db).
Proof.
  intros Hiff. apply NoDup_Permutation.
  - apply NoDup_ready.
  - apply NoDup_filter, NoDup_ready.
  - intros [k r]. rewrite list_elem_of_filter, Hiff. tauto.
Qed.

(** X5.  Every task [ready] lists can be claimed: a call of [claimTask]
    for it on the same database returns true. *)
Theorem ready_is_claimable db k r agentId now :
  (k, r) ∈ ready db → (claimTask db k agentId now).1 = true.
Proof.
  intros Hin. apply elem_of_ready in Hin as (Hr & Hs & Ha & _).
  by rewrite (claimTask_hit db k agentId now r Hr Hs Ha).
Qed.

Lemma ready_is_claimable_witness :
  (claimTask db_one_open "fg-a3f8" "worker-1" T2).1 = true.
Proof.
  apply (ready_is_claimable db_one_open "fg-a3f8"
           (sample_row open None 1 T1 T1) "worker-1" T2).
  vm_compute. apply list_elem_of_here.
Defined.

(** A claim turns an open row into an [in_progress] row; neither is
    [closed], so the tasks it blocks stay blocked. *)
Lemma blocked_ids_claimed db k r agentId now j :
  tasks db !! k = Some r → status r = open →
  j ∈ blocked_ids {| tasks := <[k := claim_set agentId now r]> (tasks db);
                     dependencies := dependencies db |}
  ↔ j ∈ blocked_ids db.
Proof.
  intros Hr Hs. rewrite !elem_of_blocked_ids. simpl. split.
  - intros (to & b & Hd & Hb & Hc). destruct (decide (k = to)) as [->|Hne].
    + exists to, r. split_and!; [done..|]. by rewrite Hs.
    + rewrite lookup_insert_ne in Hb by done. eauto.
  - intros (to & b & Hd & Hb & Hc). destruct (decide (k = to)) as [->|Hne].
    + exists to, (claim_set agentId now r).
      rewrite lookup_insert_eq. split_and!; done.
    + exists to, b. rewrite lookup_insert_ne by done. done.
Qed.

(** X6.  After a call of [claimTask] that returned true, [ready] lists
    the rows it listed before without the claimed task, and no other
    change: the claimed task leaves the ready set and the claim neither
    blocks nor unblocks any other task. *)
Theorem ready_after_claim db k agentId now :
  (claimTask db k agentId now).1 = true →
  ready (claimTask db k agentId now).2 ≡ₚ filter (λ kr, kr.1 ≠ k) (ready db).
Proof.
  destruct (claimTask_cases db k agentId now)
    as [(r & Hr & Hs & Ha & ->)|[Hno ->]]; simpl; [intros _|done].
  apply ready_filter_Permutation.
  intros j rj. rewrite !elem_of_ready. simpl.
  rewrite (blocked_ids_claimed db k r agentId now j Hr Hs).
  destruct (decide (j = k)) as [->|Hne].
  - rewrite lookup_insert_eq. split; [|tauto].
    intros ([= <-] & Hopen & _). done.
  - rewrite lookup_insert_ne by done. tauto.
Qed.

Lemma ready_after_claim_witness :
  ready (claimTask db_one_open "fg-a3f8" "worker-1" T2).2
  ≡ₚ filter (λ kr, kr.1 ≠ "fg-a3f8") (ready db_one_open).
Proof.
  apply (ready_after_claim db_one_open "fg-a3f8" "worker-1" T2).
  reflexivity.
Defined.

End ClaimComposition.

Section DepAddComposition.
Implicit Types (db : Database) (k : string) (r : TaskRow) (e : Edge).

(** The tasks the sub-select of [ready] returns once an edge is added. *)
Lemma blocked_ids_with_edge db from to ty j :
  j ∈ blocked_ids (with_edge db (from, to, ty)) ↔
  j ∈ blocked_ids db
  ∨ (j = from ∧ ty = blocks ∧
     ∃ b, tasks db !! to = Some b ∧ status b ≠ closed).
Proof.
  rewrite !elem_of_blocked_ids. unfold with_edge. simpl. split.
  - intros (to' & b & Hd & Hb & Hs).
    apply elem_of_union in Hd as [Hd|Hd]; [|left; eauto].
    apply elem_of_singleton in Hd. simplify_eq. right. eauto.
  - intros [(to' & b & Hd & Hb & Hs)|(-> & -> & b & Hb & Hs)].
    + exists to', b. split_and!; [|done..]. apply elem_of_union. by right.
    + exists to, b. split_and!; [|done..].
      apply elem_of_union. left. by apply elem_of_singleton.
Qed.

Lemma schema_ok_two_open : schema_ok db_two_open.
Proof.
  split; unfold db_two_open; simpl.
  - intros k r Hr. apply lookup_insert_Some in Hr as [[_ <-]|[_ Hr]].
    + unfold priority_ok. simpl. lia.
    + apply lookup_singleton_Some in Hr as [_ <-]. unfold priority_ok. simpl. lia.
  - intros k r Hr p Hp. apply lookup_insert_Some in Hr as [[_ <-]|[_ Hr]]; [done|].
    by apply lookup_singleton_Some in Hr as [_ <-].
  - intros e He. by apply not_elem_of_empty in He.
Defined.

Lemma schema_ok_cycle : schema_ok db_cycle.
Proof.
  split; unfold db_cycle; simpl.
  - intros k r Hr. apply lookup_insert_Some in Hr as [[_ <-]|[_ Hr]].
    + unfold priority_ok. simpl. lia.
    + apply lookup_singleton_Some in Hr as [_ <-]. unfold priority_ok. simpl. lia.
  - intros k r Hr p Hp. apply lookup_insert_Some in Hr as [[_ <-]|[_ Hr]]; [done|].
    by apply lookup_singleton_Some in Hr as [_ <-].
  - intros e He. apply elem_of_union in He as [He|He];
      apply elem_of_singleton in He as ->; split; by eexists.
Defined.

(** X7.  A row added to [dependencies] with a type other than [blocks],
    or towards a task that is closed, changes nothing in the result of
    [ready]: only [blocks] edges to tasks that are not closed keep a task
    out of the ready set. *)
Theorem ready_after_dep_add_harmless db from to ty :
  ty ≠ blocks ∨ (∃ b, tasks db !! to = Some b ∧ status b = closed) →
  ready (with_edge db (from, to, ty)) = ready db.
Proof.
  intros Hharmless.
  unfold ready. cbn [with_edge tasks]. f_equal.
  apply list_filter_iff. intros [j rj]. rewrite !ready_where_true.
  rewrite blocked_ids_with_edge.
  assert (¬ (j = from ∧ ty = blocks ∧
             ∃ b, tasks db !! to = Some b ∧ status b ≠ closed)) as Hno.
  { intros (_ & Hty & b & Hb & Hs).
    destruct Hharmless as [?|(b' & Hb' & Hc)]; [done|]. by simplify_eq. }
  tauto.
Qed.

Lemma ready_after_dep_add_harmless_witness :
  ready (with_edge db_two_open ("fg-a3f8", "fg-b2c1", related))
  = ready db_two_open.
Proof.
  apply (ready_after_dep_add_harmless db_two_open "fg-a3f8" "fg-b2c1" related).
  left. discriminate.
Defined.

(** X8.  A [blocks] row added to [dependencies] towards a task that is
    not closed takes the dependent task out of the result of [ready] and
    leaves every other row of the result as it was. *)
Theorem ready_after_dep_add_blocks db from to b :
  tasks db !! to = Some b → status b ≠ closed →
  ready (with_edge db (from, to, blocks))
  ≡ₚ filter (λ kr, kr.1 ≠ from) (ready db).
Proof.
  intros Hb Hs.
  apply ready_filter_Permutation. intros j rj.
  rewrite !elem_of_ready. cbn [with_edge tasks].
  rewrite blocked_ids_with_edge. simpl.
  destruct (decide (j = from)) as [->|Hne].
  - split; [|tauto]. intros (_ & _ & _ & Hnot). destruct Hnot. right. eauto.
  - tauto.
Qed.

Lemma ready_after_dep_add_blocks_witness :
  ready (with_edge db_two_open ("fg-a3f8", "fg-b2c1", blocks))
  ≡ₚ filter (λ kr, kr.1 ≠ "fg-a3f8") (ready db_two_open).
Proof.
  apply (ready_after_dep_add_blocks db_two_open "fg-a3f8" "fg-b2c1"
           (sample_row open None 0 T2 T2)).
  - reflexivity.
  - discriminate.
Defined.

End DepAddComposition.

Section DepTreeWalks.
Implicit Types (db : Database) (dt : TreeRow) (queue : list TreeRow)
               (ids : list string).

#[local] Instance tree_order_total : Total tree_order.
Proof. intros x y. unfold tree_order. lia. Qed.

#[local] Instance tree_order_trans : Transitive tree_order.
Proof. intros x y z. unfold tree_order. lia. Qed.

Lemma elem_of_dep_tree_step db dt dt' :
  dt' ∈ dep_tree_step db dt ↔
  ∃ k, (task_id dt, k, blocks) ∈ dependencies db ∧ depth dt < max_depth
       ∧ dt' = {| task_id := k; depth := depth dt + 1;
                  path := path dt +:+ path_separator +:+ k |}.
Proof.
  unfold dep_tree_step. rewrite list_elem_of_fmap. split.
  - intros ([[from to] ty] & -> & Hd).
    apply list_elem_of_filter in Hd as [(Hfrom & Hty & Hdepth) Hd].
    apply elem_of_elements in Hd.
    unfold from_id, to_id, edge_type in *. simpl in *. subst from ty.
    exists to. done.
  - intros (k & Hd & Hdepth & ->). exists (task_id dt, k, blocks).
    split; [done|]. apply list_elem_of_filter.
    split; [done|]. by apply elem_of_elements.
Qed.

(** The rows of a completed evaluation: the rows that were waiting and
    every row they yield, directly or through other rows. *)
Lemma elem_of_cte_run db fuel queue visited dt :
  cte_run fuel (dep_tree_step db) queue = Some visited →
  dt ∈ visited ↔ ∃ dt0, dt0 ∈ queue ∧ rtc (yields db) dt0 dt.
Proof.
  revert queue visited.
  induction fuel as [|fuel IH]; intros queue visited Hrun.
  - destruct queue; [|done]. simpl in Hrun. simplify_eq.
    split; [by intros ?%not_elem_of_nil|by intros (? & ?%not_elem_of_nil & _)].
  - destruct queue as [|dt1 rest].
    { simpl in Hrun. simplify_eq.
      split; [by intros ?%not_elem_of_nil|by intros (? & ?%not_elem_of_nil & _)]. }
    cbn [cte_run] in Hrun.
    destruct (cte_run fuel _ _) as [v|] eqn:E; [|done].
    simpl in Hrun. simplify_eq.
    rewrite elem_of_cons, (IH _ _ E). split.
    + intros [->|(dt0 & Hin & Hreach)].
      * exists dt1. split; [apply list_elem_of_here|done].
      * apply elem_of_app in Hin as [Hin|Hin].
        -- exists dt0. split; [by apply list_elem_of_further|done].
        -- exists dt1. split; [apply list_elem_of_here|].
           by eapply rtc_l.
    + intros (dt0 & Hin & Hreach). apply elem_of_cons in Hin as [->|Hin].
      * apply rtc_inv in Hreach as [->|(dt2 & Hstep & Hreach)]; [by left|].
        right. exists dt2. split; [|done]. apply elem_of_app. by right.
      * right. exists dt0. split; [|done]. apply elem_of_app. by left.
Qed.

Lemma walk_end_snoc root ids k : walk_end root (ids ++ [k]) = k.
Proof. unfold walk_end. by rewrite last_snoc. Qed.

Lemma is_walk_snoc db from ids k :
  is_walk db from (ids ++ [k]) ↔
  is_walk db from ids ∧ (walk_end from ids, k, blocks) ∈ dependencies db.
Proof.
  revert from. induction ids as [|j ids IH]; intros from.
  - simpl. unfold walk_end. simpl. tauto.
  - cbn [app is_walk]. rewrite IH.
    replace (walk_end from (j :: ids)) with (walk_end j ids); [tauto|].
    unfold walk_end. destruct ids as [|i ids]; [done|].
    rewrite last_cons_cons. destruct (last (i :: ids)) eqn:E; [done|].
    by apply last_None in E.
Qed.

Lemma walk_row_snoc root rootPath ids k :
  walk_row root rootPath (ids ++ [k]) =
  {| task_id := k; depth := depth (walk_row root rootPath ids) + 1;
     path := path (walk_row root rootPath ids) +:+ path_separator +:+ k |}.
Proof.
  unfold walk_row. cbn [task_id depth path].
  rewrite walk_end_snoc, length_app. unfold walk_path. rewrite foldl_snoc.
  f_equal. simpl. lia.
Qed.

(** The rows the anchor yields are the rows of the walks of at most
    [max_depth] edges from the root. *)
Lemma yields_walks db root rootPath dt :
  rtc (yields db) (dep_tree_anchor root rootPath) dt ↔
  ∃ ids, is_walk db root ids ∧ Z.of_nat (length ids) ≤ max_depth
         ∧ dt = walk_row root rootPath ids.
Proof.
  split.
  - intros Hreach. apply rtc_nsteps in Hreach as [n Hreach].
    revert dt Hreach. induction n as [|n IH]; intros dt Hreach.
    + inversion Hreach; subst. exists []. unfold max_depth. done.
    + apply nsteps_inv_r in Hreach as (dt1 & Hreach & Hstep).
      destruct (IH _ Hreach) as (ids & Hwalk & Hlen & ->).
      apply elem_of_dep_tree_step in Hstep as (k & Hd & Hdepth & ->).
      exists (ids ++ [k]). split_and!.
      * apply is_walk_snoc. done.
      * rewrite length_app. cbn [walk_row depth] in Hdepth. simpl. lia.
      * by rewrite walk_row_snoc.
  - intros (ids & Hwalk & Hlen & ->). revert Hwalk Hlen.
    induction ids as [|k ids IH] using rev_ind; intros Hwalk Hlen.
    + apply rtc_refl.
    + apply is_walk_snoc in Hwalk as [Hwalk Hd].
      rewrite length_app in Hlen. simpl in Hlen.
      eapply rtc_r; [apply IH; [done|lia]|].
      apply elem_of_dep_tree_step. exists k. split_and!.
      * done.
      * cbn [walk_row depth]. lia.
      * by rewrite walk_row_snoc.
Qed.

(** The recursive table of [dep_tree], with enough fuel. *)
Lemma dep_tree_visited db root rootPath :
  ∃ visited,
    cte_run (row_cost db (dep_tree_anchor root rootPath)) (dep_tree_step db)
            [dep_tree_anchor root rootPath] = Some visited
    ∧ dep_tree db root rootPath = Some (dep_tree_select db visited)
    ∧ ∀ dt, dt ∈ visited ↔
            ∃ ids, is_walk db root ids ∧ Z.of_nat (length ids) ≤ max_depth
                   ∧ dt = walk_row root rootPath ids.
Proof.
  set (anchor := dep_tree_anchor root rootPath).
  destruct (cte_run_enough db (row_cost db anchor) [anchor])
    as (visited & Hrun & _);
    [change (row_cost db anchor + 0 ≤ row_cost db anchor)%nat; lia|].
  exists visited. split_and!; [done| |].
  - unfold dep_tree, dep_tree_query. fold anchor. by rewrite Hrun.
  - intros dt. rewrite (elem_of_cte_run _ _ _ _ _ Hrun).
    rewrite <- yields_walks. fold anchor. split.
    + by intros (dt0 & ->%list_elem_of_singleton & Hreach).
    + intros Hreach. exists anchor. split; [apply list_elem_of_here|done].
Qed.

Lemma elem_of_dep_tree_select db visited r :
  r ∈ dep_tree_select db visited ↔
  ∃ dt, dt ∈ visited ∧ dep_tree_join db dt = Some r.
Proof.
  unfold dep_tree_select. rewrite merge_sort_Permutation.
  apply list_elem_of_omap.
Qed.

(** X10.  The rows [dep_tree] returns are exactly the walks of at most
    ten [blocks] edges from the root that end at a task of [tasks], one
    row per walk end: the depth is the number of edges, the path lists the
    ids met, and the other columns are those of the task the walk ends
    at.  A cycle therefore shows as the rows of its walks up to depth
    ten, and a walk that ends at an id that is no task gives no row. *)
Theorem dep_tree_rows db root rootPath :
  ∃ rows, dep_tree db root rootPath = Some rows ∧
    ∀ r, r ∈ rows ↔
      ∃ ids t,
        is_walk db root ids ∧ Z.of_nat (length ids) ≤ max_depth
        ∧ tasks db !! walk_end root ids = Some t
        ∧ r = {| r_depth := Z.of_nat (length ids);
                 r_path := walk_path rootPath ids;
                 r_id := walk_end root ids;
                 r_title := title t; r_status := status t;
                 r_priority := priority t |}.
Proof.
  destruct (dep_tree_visited db root rootPath) as (visited & _ & Htree & Hvisited).
  exists (dep_tree_select db visited). split; [done|].
  intros r. rewrite elem_of_dep_tree_select. split.
  - intros (dt & Hdt & Hjoin). apply Hvisited in Hdt as (ids & Hwalk & Hlen & ->).
    unfold dep_tree_join in Hjoin. cbn [walk_row task_id depth path] in Hjoin.
    destruct (tasks db !! walk_end root ids) as [t|] eqn:Ht; [|done].
    simpl in Hjoin. simplify_eq. exists ids, t. done.
  - intros (ids & t & Hwalk & Hlen & Ht & ->).
    exists (walk_row root rootPath ids). split.
    + apply Hvisited. eauto.
    + unfold dep_tree_join. cbn [walk_row task_id depth path]. by rewrite Ht.
Qed.

(** X11.  The rows of [dep_tree] come in ascending order of depth and,
    within a depth, of priority; when the root is a task, the first row
    is the root itself at depth 0 with the path it was given. *)
Theorem dep_tree_root_first db root rootPath :
  ∃ rows, dep_tree db root rootPath = Some rows ∧
    StronglySorted tree_order rows ∧
    ∀ t, tasks db !! root = Some t →
      head rows = Some {| r_depth := 0; r_path := rootPath; r_id := root;
                          r_title := title t; r_status := status t;
                          r_priority := priority t |}.
Proof.
  destruct (dep_tree_visited db root rootPath) as (visited & _ & Htree & Hvisited).
  exists (dep_tree_select db visited). split; [done|].
  assert (StronglySorted tree_order (dep_tree_select db visited)) as Hsorted
    by (apply StronglySorted_merge_sort; apply _).
  split; [done|]. intros t Ht.
  set (a := {| r_depth := 0; r_path := rootPath; r_id := root;
               r_title := title t; r_status := status t;
               r_priority := priority t |}).
  assert (a ∈ dep_tree_select db visited) as Ha.
  { apply elem_of_dep_tree_select. exists (walk_row root rootPath []). split.
    - apply Hvisited. exists []. unfold max_depth. done.
    - unfold dep_tree_join. cbn [walk_row task_id]. unfold walk_end. simpl.
      by rewrite Ht. }
  assert (∀ r, r ∈ dep_tree_select db visited → r_depth r ≤ 0 → r = a) as Hzero.
  { intros r Hr Hd. apply elem_of_dep_tree_select in Hr as (dt & Hdt & Hjoin).
    apply Hvisited in Hdt as (ids & _ & _ & ->).
    unfold dep_tree_join in Hjoin. cbn [walk_row task_id depth path] in Hjoin.
    destruct (tasks db !! walk_end root ids) as [t'|] eqn:Ht'; [|done].
    simpl in Hjoin. simplify_eq. simpl in Hd.
    destruct ids as [|k ids]; [|simpl in Hd; lia].
    unfold walk_end in Ht'. simpl in Ht'. by simplify_eq. }
  destruct (dep_tree_select db visited) as [|r0 rest] eqn:Hrows;
    [by apply not_elem_of_nil in Ha|].
  simpl. f_equal. apply Hzero; [apply list_elem_of_here|].
  apply elem_of_cons in Ha as [<-|Ha]; [done|].
  apply StronglySorted_inv in Hsorted as [_ Hall].
  rewrite Forall_forall in Hall. specialize (Hall a Ha).
  unfold tree_order in Hall. simpl in Hall. lia.
Qed.

(** X12.  In a database that satisfies the schema, [dep_tree] from an id
    that is no task returns the empty list, not an error: the foreign key
    leaves no edge from such an id, and the join drops its anchor row. *)
Theorem dep_tree_unknown_root db root rootPath :
  schema_ok db → tasks db !! root = None →
  dep_tree db root rootPath = Some [].
Proof.
  intros [_ _ Hfk] Hnone.
  destruct (dep_tree_visited db root rootPath) as (visited & _ & -> & Hvisited).
  f_equal. apply elem_of_nil_inv. intros r Hr.
  apply elem_of_dep_tree_select in Hr as (dt & Hdt & Hjoin).
  apply Hvisited in Hdt as (ids & Hwalk & _ & ->).
  unfold dep_tree_join in Hjoin. cbn [walk_row task_id] in Hjoin.
  destruct ids as [|k ids].
  - unfold walk_end in Hjoin. simpl in Hjoin. by rewrite Hnone in Hjoin.
  - destruct Hwalk as [Hd _]. destruct (Hfk _ Hd) as [[b Hb] _].
    unfold from_id in Hb. simpl in Hb. congruence.
Qed.

Lemma dep_tree_unknown_root_witness :
  dep_tree db_two_open "fg-zzzz" "fg-zzzz" = Some [].
Proof.
  apply (dep_tree_unknown_root db_two_open "fg-zzzz" "fg-zzzz").
  - exact schema_ok_two_open.
  - reflexivity.
Defined.

End DepTreeWalks.

Section ShowQueries.
Implicit Types (db : Database) (k : string) (r : TaskRow) (e : Edge).

#[local] Instance select_order_total : Total ready_order.
Proof.
  intros x y. unfold ready_order.
  destruct (Z.lt_trichotomy (priority x.2) (priority y.2)) as [?|[Heq|?]];
    [by left; left| |by right; left].
  destruct (total String.le (created_at x.2) (created_at y.2)).
  - left. by right.
  - right. right. by split.
Qed.

#[local] Instance select_order_trans : Transitive ready_order.
Proof.
  intros x y z [Hxy|[Hxy Hc1]] [Hyz|[Hyz Hc2]]; unfold ready_order;
    [left; lia..|].
  right. split; [lia|]. by etrans.
Qed.

Section Select.
Context (P : string * TaskRow → Prop) `{∀ t, Decision (P t)}.

Lemma elem_of_select_ordered m k r :
  (k, r) ∈ select_ordered P m ↔ m !! k = Some r ∧ P (k, r).
Proof.
  unfold select_ordered. rewrite merge_sort_Permutation.
  rewrite list_elem_of_filter, elem_of_map_to_list. tauto.
Qed.

Lemma NoDup_select_ordered m : NoDup (select_ordered P m).*1.
Proof.
  unfold select_ordered. rewrite merge_sort_Permutation.
  eapply sublist_NoDup; [apply (NoDup_fst_map_to_list m)|].
  apply fmap_sublist, sublist_filter.
Qed.

Lemma Sorted_select_ordered m : StronglySorted ready_order (select_ordered P m).
Proof. apply StronglySorted_merge_sort; apply _. Qed.

End Select.

Lemma elem_of_show_outbound db k i :
  i ∈ show_outbound db k ↔
  ∃ to ty t, (k, to, ty) ∈ dependencies db ∧ tasks db !! to = Some t
             ∧ i = dep_info ty to t.
Proof.
  unfold show_outbound. rewrite list_elem_of_omap. split.
  - intros ([[from to] ty] & Hd & Hi).
    apply list_elem_of_filter in Hd as [Hfrom Hd]. apply elem_of_elements in Hd.
    unfold from_id, to_id, edge_type in *. simpl in *. subst from.
    destruct (tasks db !! to) as [t|] eqn:Ht; [|done].
    simpl in Hi. simplify_eq. by exists to, ty, t.
  - intros (to & ty & t & Hd & Ht & ->). exists (k, to, ty). split.
    + apply list_elem_of_filter. split; [done|]. by apply elem_of_elements.
    + unfold to_id, edge_type. simpl. by rewrite Ht.
Qed.

Lemma elem_of_show_inbound db k i :
  i ∈ show_inbound db k ↔
  ∃ from ty t, (from, k, ty) ∈ dependencies db ∧ tasks db !! from = Some t
               ∧ i = dep_info ty from t.
Proof.
  unfold show_inbound. rewrite list_elem_of_omap. split.
  - intros ([[from to] ty] & Hd & Hi).
    apply list_elem_of_filter in Hd as [Hto Hd]. apply elem_of_elements in Hd.
    unfold from_id, to_id, edge_type in *. simpl in *. subst to.
    destruct (tasks db !! from) as [t|] eqn:Ht; [|done].
    simpl in Hi. simplify_eq. by exists from, ty, t.
  - intros (from & ty & t & Hd & Ht & ->). exists (from, k, ty). split.
    + apply list_elem_of_filter. split; [done|]. by apply elem_of_elements.
    + unfold from_id, edge_type. simpl. by rewrite Ht.
Qed.

(** X13.  In a database that satisfies the schema, steps 2 and 3 of
    [forge task show] list every edge of the task and nothing else: an
    edge is among the outbound rows of its [from_id] and among the inbound
    rows of its [to_id], each time with the columns of the task at the
    other end. *)
Theorem show_dependencies_exact db from to ty :
  schema_ok db →
  ((from, to, ty) ∈ dependencies db ↔
     ∃ t, tasks db !! to = Some t ∧ dep_info ty to t ∈ show_outbound db from)
  ∧ ((from, to, ty) ∈ dependencies db ↔
     ∃ t, tasks db !! from = Some t ∧ dep_info ty from t ∈ show_inbound db to).
Proof.
  intros [_ _ Hfk]. split; split.
  - intros Hd. destruct (Hfk _ Hd) as [_ [t Ht]]. exists t. split; [done|].
    apply elem_of_show_outbound. by exists to, ty, t.
  - intros (t & _ & Hi).
    apply elem_of_show_outbound in Hi as (to' & ty' & t' & Hd & _ & Heq).
    unfold dep_info in Heq. by simplify_eq.
  - intros Hd. destruct (Hfk _ Hd) as [[t Ht] _]. exists t. split; [done|].
    apply elem_of_show_inbound. by exists from, ty, t.
  - intros (t & _ & Hi).
    apply elem_of_show_inbound in Hi as (from' & ty' & t' & Hd & _ & Heq).
    unfold dep_info in Heq. by simplify_eq.
Qed.

Lemma show_dependencies_exact_witness :
  (("fg-a3f8", "fg-b2c1", blocks) ∈ dependencies db_cycle ↔
     ∃ t, tasks db_cycle !! "fg-b2c1" = Some t
          ∧ dep_info blocks "fg-b2c1" t ∈ show_outbound db_cycle "fg-a3f8")
  ∧ (("fg-a3f8", "fg-b2c1", blocks) ∈ dependencies db_cycle ↔
     ∃ t, tasks db_cycle !! "fg-a3f8" = Some t
          ∧ dep_info blocks "fg-a3f8" t ∈ show_inbound db_cycle "fg-b2c1").
Proof.
  apply (show_dependencies_exact db_cycle "fg-a3f8" "fg-b2c1" blocks).
  exact schema_ok_cycle.
Defined.

(** X14.  Step 4 of [forge task show] lists exactly the tasks whose
    [parent_id] is the given id, each once, in ascending order of
    priority. *)
Theorem show_subtasks_exact db k :
  (∀ s, s ∈ show_subtasks db k ↔
        ∃ j r, tasks db !! j = Some r ∧ parent_id r = Some k
               ∧ s = subtask_info (j, r))
  ∧ NoDup (sub_id <$> show_subtasks db k)
  ∧ StronglySorted (λ x y, sub_priority x ≤ sub_priority y) (show_subtasks db k).
Proof.
  unfold show_subtasks. split_and!.
  - intros s. rewrite list_elem_of_fmap. split.
    + intros ([j r] & -> & Hin). apply elem_of_select_ordered in Hin as [Hr Hp].
      by exists j, r.
    + intros (j & r & Hr & Hp & ->). exists (j, r). split; [done|].
      by apply elem_of_select_ordered.
  - rewrite <- list_fmap_compose.
    apply (NoDup_select_ordered (λ t, parent_id t.2 = Some k)).
  - apply (StronglySorted_fmap _ ready_order); [|apply Sorted_select_ordered].
    intros x y. unfold ready_order. simpl. lia.
Qed.

Lemma issue_order_fmap (l : list (string * TaskRow)) :
  StronglySorted ready_order l → StronglySorted issue_order (issue_task <$> l).
Proof. apply StronglySorted_fmap. by intros x y. Qed.

(** X15.  The query for a GitHub issue returns exactly the tasks whose
    [github_issue] is that number, each once, in ascending order of
    priority and, within a priority, of [created_at]; a task with no
    issue number is in no result. *)
Theorem tasks_for_issue_exact db issue :
  (∀ i, i ∈ tasks_for_issue db issue ↔
        ∃ j r, tasks db !! j = Some r ∧ github_issue r = Some issue
               ∧ i = issue_task (j, r))
  ∧ NoDup (it_id <$> tasks_for_issue db issue)
  ∧ StronglySorted issue_order (tasks_for_issue db issue).
Proof.
  unfold tasks_for_issue. split_and!.
  - intros i. rewrite list_elem_of_fmap. split.
    + intros ([j r] & -> & Hin). apply elem_of_select_ordered in Hin as [Hr Hp].
      by exists j, r.
    + intros (j & r & Hr & Hp & ->). exists (j, r). split; [done|].
      by apply elem_of_select_ordered.
  - rewrite <- list_fmap_compose.
    apply (NoDup_select_ordered (λ t, github_issue t.2 = Some issue)).
  - apply issue_order_fmap, Sorted_select_ordered.
Qed.

(** X16.  [forge task show] on an id that is no task of a database that
    satisfies the schema finds nothing in any of its four steps: no row,
    no outbound and no inbound dependency, no subtask. *)
Theorem show_unknown_task db k :
  schema_ok db → tasks db !! k = None →
  show_task db k = None ∧ show_outbound db k = [] ∧ show_inbound db k = []
  ∧ show_subtasks db k = [].
Proof.
  intros [_ Hparent Hfk] Hnone. split_and!.
  - done.
  - apply elem_of_nil_inv. intros i Hi.
    apply elem_of_show_outbound in Hi as (to & ty & t & Hd & _ & _).
    destruct (Hfk _ Hd) as [[b Hb] _]. unfold from_id in Hb. simpl in Hb.
    congruence.
  - apply elem_of_nil_inv. intros i Hi.
    apply elem_of_show_inbound in Hi as (from & ty & t & Hd & _ & _).
    destruct (Hfk _ Hd) as [_ [b Hb]]. unfold to_id in Hb. simpl in Hb.
    congruence.
  - unfold show_subtasks. apply elem_of_nil_inv. intros s Hs.
    apply list_elem_of_fmap in Hs as ([j r] & _ & Hin).
    apply elem_of_select_ordered in Hin as [Hr Hp]. simpl in Hp.
    destruct (Hparent j r Hr k Hp) as [b Hb]. congruence.
Qed.

Lemma show_unknown_task_witness :
  show_task db_two_open "fg-zzzz" = None
  ∧ show_outbound db_two_open "fg-zzzz" = []
  ∧ show_inbound db_two_open "fg-zzzz" = []
  ∧ show_subtasks db_two_open "fg-zzzz" = [].
Proof.
  apply (show_unknown_task db_two_open "fg-zzzz").
  - exact schema_ok_two_open.
  - reflexivity.
Defined.

End ShowQueries.

Section DeleteTask.
Implicit Types (db : Database) (k : string) (r : TaskRow) (e : Edge).

Lemma orphan_priority k r : priority (orphan k r) = priority r.
Proof. unfold orphan. by destruct (decide _). Qed.

Lemma orphan_parent k r p : parent_id (orphan k r) = Some p ↔ parent_id r = Some p ∧ p ≠ k.
Proof.
  unfold orphan. destruct (decide (parent_id r = Some k)) as [Hk|Hk]; simpl.
  - split; [done|]. intros [Hp Hne]. congruence.
  - split; [|tauto]. intros Hp. split; [done|]. congruence.
Qed.

Lemma delete_task_lookup db k t j :
  tasks db !! k = Some t →
  tasks (delete_task db k) !! j =
    if decide (j = k) then None else orphan k <$> tasks db !! j.
Proof.
  intros Hk. unfold delete_task. rewrite Hk. simpl. rewrite lookup_fmap.
  destruct (decide (j = k)) as [->|Hne].
  - by rewrite lookup_delete_eq.
  - by rewrite lookup_delete_ne.
Qed.

Lemma delete_task_edges db k t e :
  tasks db !! k = Some t →
  e ∈ dependencies (delete_task db k) ↔
  e ∈ dependencies db ∧ from_id e ≠ k ∧ to_id e ≠ k.
Proof.
  intros Hk. unfold delete_task. rewrite Hk. simpl.
  rewrite elem_of_filter. tauto.
Qed.

(** X17.  Deleting a task from a database that satisfies the schema
    leaves a database that satisfies it: the task is gone, no row of
    [dependencies] mentions it any more while every other edge stays, and
    every other task keeps its row, with [parent_id] set to NULL where the
    deleted task was its parent. *)
Theorem delete_task_cascade db k :
  schema_ok db →
  schema_ok (delete_task db k)
  ∧ tasks (delete_task db k) !! k = None
  ∧ (∀ j, j ≠ k → tasks (delete_task db k) !! j = orphan k <$> tasks db !! j)
  ∧ (∀ e, e ∈ dependencies (delete_task db k) ↔
          e ∈ dependencies db ∧ from_id e ≠ k ∧ to_id e ≠ k).
Proof.
  intros [Hprio Hparent Hfk].
  destruct (tasks db !! k) as [t|] eqn:Hk.
  - assert (∀ j, j ≠ k → is_Some (tasks db !! j) →
                 is_Some (tasks (delete_task db k) !! j)) as Hsome.
    { intros j Hne [r Hr]. rewrite (delete_task_lookup db k t j Hk).
      rewrite decide_False by done. rewrite Hr. by eexists. }
    split_and!.
    + split.
      * intros j r Hr. rewrite (delete_task_lookup db k t j Hk) in Hr.
        destruct (decide (j = k)); [done|].
        destruct (tasks db !! j) as [r0|] eqn:Hr0; [|done].
        simpl in Hr. simplify_eq. unfold priority_ok.
        rewrite orphan_priority. by apply (Hprio j).
      * intros j r Hr p Hp. rewrite (delete_task_lookup db k t j Hk) in Hr.
        destruct (decide (j = k)); [done|].
        destruct (tasks db !! j) as [r0|] eqn:Hr0; [|done].
        simpl in Hr. simplify_eq. apply orphan_parent in Hp as [Hp Hne].
        apply Hsome; [done|]. by apply (Hparent j r0).
      * intros e He. apply (delete_task_edges db k t e Hk) in He as (He & Hf & Ht).
        destruct (Hfk e He). split; by apply Hsome.
    + rewrite (delete_task_lookup db k t k Hk). by rewrite decide_True.
    + intros j Hne. rewrite (delete_task_lookup db k t j Hk).
      by rewrite decide_False.
    + intros e. by apply (delete_task_edges db k t).
  - assert (delete_task db k = db) as -> by (unfold delete_task; by rewrite Hk).
    split_and!.
    + by split.
    + done.
    + intros j Hne. destruct (tasks db !! j) as [r|] eqn:Hr; [|done].
      simpl. f_equal. unfold orphan.
      destruct (decide (parent_id r = Some k)) as [Hp|]; [|done].
      destruct (Hparent j r Hr k Hp) as [b Hb]. congruence.
    + intros e. split; [|tauto]. intros He. split; [done|].
      destruct (Hfk e He) as [[b1 Hb1] [b2 Hb2]]. split; congruence.
Qed.

Lemma delete_task_cascade_witness :
  schema_ok (delete_task db_cycle "fg-b2c1")
  ∧ tasks (delete_task db_cycle "fg-b2c1") !! "fg-b2c1" = None
  ∧ (∀ j, j ≠ "fg-b2c1" →
          tasks (delete_task db_cycle "fg-b2c1") !! j
          = orphan "fg-b2c1" <$> tasks db_cycle !! j)
  ∧ (∀ e, e ∈ dependencies (delete_task db_cycle "fg-b2c1") ↔
          e ∈ dependencies db_cycle ∧ from_id e ≠ "fg-b2c1" ∧ to_id e ≠ "fg-b2c1").
Proof.
  apply (delete_task_cascade db_cycle "fg-b2c1"). exact schema_ok_cycle.
Defined.

Example delete_task_cycle :
  delete_task db_cycle "fg-b2c1" = db_one_open.
Proof. vm_compute. reflexivity. Qed.

End DeleteTask.

Section ImportOrder.
Implicit Types (db : Database) (m : gmap string TaskRow) (t : Task)
               (lines : list Line) (k : string) (e : Edge).

Lemma later_not_le a b : later a b ↔ ¬ String.le a b.
Proof.
  unfold later, String.le, String.ltb, String.leb.
  rewrite (String.compare_antisym a b).
  destruct (String.compare b a); simpl; split; intros H; try done;
    try tauto; by destruct H.
Qed.

Lemma later_trans a b c : later a b → later b c → later a c.
Proof.
  rewrite !later_not_le. intros Hab Hbc Hac.
  destruct (total String.le b a) as [Hba|]; [|done].
  destruct (total String.le c b) as [Hcb|]; [|done].
  apply Hab. by do 2 (etrans; [eassumption|]).
Qed.

Lemma later_trichotomy a b : later a b ∨ a = b ∨ later b a.
Proof.
  rewrite !later_not_le.
  destruct (decide (String.le a b)) as [Hab|Hab]; [|by left].
  destruct (decide (String.le b a)) as [Hba|Hba]; [|by right; right].
  right. left. by apply (anti_symm String.le).
Qed.

(** Two upserts for one task can be done in either order, when snapshots
    with the same timestamp have the same row. *)
Lemma upsert_held_comm t1 t2 held :
  (updated_at (row t1) = updated_at (row t2) → row t1 = row t2) →
  upsert_held t1 (upsert_held t2 held) = upsert_held t2 (upsert_held t1 held).
Proof.
  intros Htie.
  pose proof (later_trichotomy (updated_at (row t1)) (updated_at (row t2)))
    as Htri.
  pose proof (later_asym (updated_at (row t1)) (updated_at (row t2))) as Hasym.
  pose proof (later_irrefl (updated_at (row t1))) as Hirr1.
  pose proof (later_irrefl (updated_at (row t2))) as Hirr2.
  assert (updated_at (row t1) = updated_at (row t2) →
          ∀ x, later (updated_at (row t1)) x ↔ later (updated_at (row t2)) x)
    as Hsame by (by intros ->).
  destruct held as [r|]; cbn [upsert_held].
  - pose proof (later_trans (updated_at (row t1)) (updated_at (row t2))
                  (updated_at r)) as Ht12.
    pose proof (later_trans (updated_at (row t2)) (updated_at (row t1))
                  (updated_at r)) as Ht21.
    destruct (decide (later (updated_at (row t2)) (updated_at r))) as [H2|H2];
      destruct (decide (later (updated_at (row t1)) (updated_at r))) as [H1|H1];
      cbn [upsert_held];
      repeat (destruct (decide (later _ _)) as [?|?]);
      try done; try tauto;
      (destruct Htri as [?|[Heq|?]]; [tauto| |tauto]);
      pose proof (Htie Heq) as Hrow; pose proof (Hsame Heq (updated_at r));
      first [by rewrite Hrow | tauto].
  - destruct (decide (later (updated_at (row t1)) (updated_at (row t2))));
      destruct (decide (later (updated_at (row t2)) (updated_at (row t1))));
      try done; try tauto.
    destruct Htri as [?|[Heq|?]]; [tauto| |tauto]. by rewrite (Htie Heq).
Qed.

Lemma import_line_comm m l1 l2 :
  (∀ t1 t2, l1 = Snapshot t1 → l2 = Snapshot t2 → id t1 = id t2 →
            updated_at (row t1) = updated_at (row t2) → row t1 = row t2) →
  import_line (import_line m l1) l2 = import_line (import_line m l2) l1.
Proof.
  intros Htie. destruct l1 as [t1|], l2 as [t2|]; cbn [import_line]; try done.
  apply map_eq. intros k. rewrite !upsert_lookup.
  destruct (decide (id t2 = k)) as [H2|H2], (decide (id t1 = k)) as [H1|H1];
    try done.
  symmetry. apply upsert_held_comm. apply Htie; congruence.
Qed.

(** A left fold whose steps commute on the elements of the list does not
    depend on their order. *)
Lemma foldl_Permutation_comm {A B} (f : A → B → A) (l l' : list B) :
  (∀ a x y, x ∈ l → y ∈ l → f (f a x) y = f (f a y) x) →
  l ≡ₚ l' → ∀ a, foldl f a l = foldl f a l'.
Proof.
  intros Hcomm Hperm. induction Hperm as [|x l l' Hperm IH|x y l|l l' l'' H1 IH1 H2 IH2];
    intros a.
  - done.
  - simpl. apply IH. intros a' y z Hy Hz.
    apply Hcomm; by apply list_elem_of_further.
  - simpl. f_equal. apply Hcomm.
    + apply list_elem_of_here.
    + apply list_elem_of_further, list_elem_of_here.
  - rewrite IH1 by done. apply IH2.
    intros a' y z Hy Hz. apply Hcomm; by rewrite H1.
Qed.

Lemma import_tasks_Permutation lines lines' m :
  ties_agree lines → lines ≡ₚ lines' →
  import_tasks lines m = import_tasks lines' m.
Proof.
  intros Hties Hperm. unfold import_tasks.
  apply foldl_Permutation_comm; [|done].
  intros a l1 l2 H1 H2. apply import_line_comm.
  intros t1 t2 -> ->. by apply Hties.
Qed.

(** X18.  The order of the lines of the Record Store does not matter to
    the import, as long as no two different versions of a task carry the
    same [updated_at]: any two stores with the same lines, in whatever
    order a merge left them, give the same Index. *)
Theorem import_order_irrelevant lines lines' db :
  ties_agree lines → lines ≡ₚ lines' →
  import lines db = import lines' db.
Proof.
  intros Hties Hperm. unfold import.
  rewrite <- (import_tasks_Permutation lines lines' (tasks db) Hties Hperm).
  f_equal. apply set_eq. intros e. rewrite !elem_of_import_edges.
  split; (intros [?|(t & Hin & ? & ?)]; [by left|right; exists t]);
    split_and!; try done.
  - by rewrite <- Hperm.
  - by rewrite Hperm.
Qed.

Lemma ties_agree_later_first : ties_agree store_later_first.
Proof.
  intros s s' Hs Hs' _ Hts. unfold store_later_first in *.
  repeat (apply elem_of_cons in Hs as [Hs|Hs]; [|]);
    try (by apply not_elem_of_nil in Hs); simplify_eq;
    repeat (apply elem_of_cons in Hs' as [Hs'|Hs']; [|]);
    try (by apply not_elem_of_nil in Hs'); simplify_eq; try done.
Defined.

Lemma import_order_irrelevant_witness :
  import store_later_first empty_db
  = import [Snapshot snap_T1; Snapshot snap_T2; Malformed "{"] empty_db.
Proof.
  apply (import_order_irrelevant store_later_first).
  - exact ties_agree_later_first.
  - apply (Permutation_app_comm [Snapshot snap_T2; Malformed "{"]
                                [Snapshot snap_T1]).
Defined.

(** The row held after a fold of upserts is at least as late as every
    snapshot folded in. *)
Lemma upsert_held_Some t held : ∃ r, upsert_held t held = Some r
  ∧ ¬ later (updated_at (row t)) (updated_at r)
  ∧ ∀ r0, held = Some r0 → ¬ later (updated_at r0) (updated_at r).
Proof.
  destruct held as [r0|]; cbn [upsert_held].
  - destruct (decide (later (updated_at (row t)) (updated_at r0))) as [Hl|Hl].
    + exists (row t). split_and!; [done|apply later_irrefl|].
      intros ? [= <-]. by apply later_asym.
    + exists r0. split_and!; [done..|]. intros ? [= <-]. apply later_irrefl.
  - exists (row t). split_and!; [done|apply later_irrefl|done].
Qed.

Lemma not_later_trans a b c : ¬ later a b → ¬ later b c → ¬ later a c.
Proof.
  rewrite !later_not_le. intros Hab Hbc Hac. apply Hac.
  apply dec_stable in Hab, Hbc. by etrans.
Qed.

Lemma foldl_upsert_held_top snaps held r :
  foldl (λ h t, upsert_held t h) held snaps = Some r →
  (∀ r0, held = Some r0 → ¬ later (updated_at r0) (updated_at r))
  ∧ ∀ t, t ∈ snaps → ¬ later (updated_at (row t)) (updated_at r).
Proof.
  revert held. induction snaps as [|t snaps IH]; intros held Hfold.
  - simpl in Hfold. split.
    + intros r0 ?. simplify_eq. apply later_irrefl.
    + intros t Ht. by apply not_elem_of_nil in Ht.
  - change (foldl (λ h t0, upsert_held t0 h) (upsert_held t held) snaps
            = Some r) in Hfold.
    destruct (upsert_held_Some t held) as (r1 & Hr1 & Ht & Hheld).
    rewrite Hr1 in Hfold. destruct (IH _ Hfold) as [Hmono Hall].
    specialize (Hmono r1 eq_refl). split.
    + intros r0 Hr0. eapply not_later_trans; [by apply Hheld|done].
    + intros t' [->|Hin]%elem_of_cons; [|by apply Hall].
      by eapply not_later_trans.
Qed.

Lemma foldl_upsert_held_fixed snaps r :
  (∀ t, t ∈ snaps → ¬ later (updated_at (row t)) (updated_at r)) →
  foldl (λ h t, upsert_held t h) (Some r) snaps = Some r.
Proof.
  induction snaps as [|t snaps IH]; intros Hall; [done|].
  change (foldl (λ h t0, upsert_held t0 h) (upsert_held t (Some r)) snaps
          = Some r).
  rewrite upsert_held_not_newer.
  - apply IH. intros t' Ht'. apply Hall. by apply list_elem_of_further.
  - apply Hall, list_elem_of_here.
Qed.

Lemma import_tasks_twice lines m :
  import_tasks lines (import_tasks lines m) = import_tasks lines m.
Proof.
  apply map_eq. intros k. rewrite import_tasks_lookup.
  destruct (import_tasks lines m !! k) as [r|] eqn:Hr.
  - apply foldl_upsert_held_fixed.
    rewrite import_tasks_lookup in Hr.
    by apply foldl_upsert_held_top in Hr as [_ Hall].
  - rewrite import_tasks_lookup in Hr.
    destruct (snapshots_of k lines) as [|t snaps]; [done|].
    change (foldl (λ h t0, upsert_held t0 h) (upsert_held t (m !! k)) snaps
            = None) in Hr.
    destruct (upsert_held_Some t (m !! k)) as (r1 & Hr1 & _).
    rewrite Hr1 in Hr. clear Hr1. exfalso.
    revert r1 Hr. induction snaps as [|t' snaps IH]; intros r1 Hr; [done|].
    change (foldl (λ h t0, upsert_held t0 h) (upsert_held t' (Some r1)) snaps
            = None) in Hr.
    destruct (upsert_held_Some t' (Some r1)) as (r2 & Hr2 & _).
    rewrite Hr2 in Hr. by apply (IH r2).
Qed.

(** X20.  Importing the same Record Store a second time changes nothing:
    the Index after two imports is the Index after one. *)
Theorem import_idempotent lines db :
  import lines (import lines db) = import lines db.
Proof.
  apply Database_eq; unfold import; cbn [tasks dependencies].
  - apply import_tasks_twice.
  - rewrite import_tasks_twice.
    apply set_eq. intros e. rewrite elem_of_import_edges.
    split; [|by left]. intros [He|Hex]; [done|].
    apply elem_of_import_edges. by right.
Qed.

End ImportOrder.

Section ForeignKey.
Implicit Types (db : Database) (k : string) (e : Edge).


Example ready_blocker_closed :
  ready db_blocker_closed = [("fg-a3f8", sample_row open None 1 T1 T1)].
Proof. vm_compute. reflexivity. Qed.






End ForeignKey.
